(** * start.py: a static file server on top of [http.server]

    A shallow embedding of [start.py] together with the part of the Python
    runtime it runs on: exceptions and the [with] and [try] statements,
    [os.chdir], [print], [socketserver.TCPServer] and [argparse].

    The program is effectful, so every function of the source is a
    computation in a small monad [M]: it reads the behaviour of the host
    (which directories exist, which ports are free, what happens while the
    server runs) from an [Env], threads the state of the process (working
    directory, sockets, log of the calls made so far) through a [World],
    and completes by returning, by raising, or not at all. *)

From Stdlib Require Import ZArith String Ascii List Bool Lia DecimalString.
Import ListNotations.
Local Open Scope string_scope.

(** ** Python values and control flow *)

Module Py.

(** Exceptions, by class. [KeyboardInterrupt] and [SystemExit] derive from
    [BaseException] directly; every other class derives from [Exception]. *)
Inductive exn : Type :=
| KeyboardInterrupt
| SystemExit (code : Z)
| OSError (errno : Z)
| OtherException (class_name : string).

(** [isinstance(e, KeyboardInterrupt)] *)
Definition isinstance_KeyboardInterrupt (e : exn) : bool :=
  match e with
  | KeyboardInterrupt => true
  | _ => false
  end.

(** [isinstance(e, Exception)] *)
Definition isinstance_Exception (e : exn) : bool :=
  match e with
  | KeyboardInterrupt | SystemExit _ => false
  | OSError _ | OtherException _ => true
  end.

(** How a call ends. [Blocks]: the call never returns (the serve loop keeps
    polling and nothing more happens to the process, or a request handler
    waits for its client for ever). *)
Inductive completion (A : Type) : Type :=
| Returns (a : A)
| Raises (e : exn)
| Blocks.

Arguments Returns {A} a.
Arguments Raises {A} e.
Arguments Blocks {A}.

Definition TypeError : exn := OtherException "TypeError".

(** What [start.py] finds in an attribute of its namespace: the value that
    [argparse] has made of an argument string or the default, or, when
    [argparse] has dropped the string, an empty list. *)
Inductive stored (A : Type) : Type :=
| value (a : A)
| empty_list.

Arguments value {A} a.
Arguments empty_list {A}.

(** The line feed, and [str(n)] for an [int]. *)
Definition LF : string := String (ascii_of_nat 10) EmptyString.

Definition str (n : Z) : string := NilZero.string_of_int (Z.to_int n).

(** A replacement field of an f-string. *)
Definition format_int (x : stored Z) : string :=
  match x with
  | value n => str n
  | empty_list => "[]"
  end.

Definition format_str (x : stored string) : string :=
  match x with
  | value s => s
  | empty_list => "[]"
  end.

End Py.
Export Py.

(** ** The process and its host *)

Module Os.

Inductive handler_class : Type :=
| BaseHTTPRequestHandler
| SimpleHTTPRequestHandler.

Inductive sock_state : Type :=
| Unbound
| Bound (ip : string) (port : Z)
| Listening (ip : string) (port : Z)
| Connected
| Closed.

(** What [argparse] complains about when it rejects a command line. *)
Inductive usage_error : Type :=
| ambiguous_option (arg_string : string)
| ignored_explicit_argument (explicit_arg : string)
| expected_one_argument (option_string : string)
| invalid_int_value (arg_string : string)
| unrecognized_arguments (extras : list string).

(** The calls of the process that the outside can observe, in the order they
    are made. [Chdir], [Bind] and [Listen] are logged when the call is made,
    whether it succeeds or not; a socket enters the log when it is created.
    [PrintHelp] is the help text of [argparse] on standard output,
    [PrintUsage] its usage line and error message on standard error. *)
Inductive event : Type :=
| Chdir (path : string)
| Socket (fd : nat)
| Bind (fd : nat) (host : string) (port : Z)
| Listen (fd : nat)
| Accept (fd conn : nat)
| Handle (conn : nat) (handler : handler_class) (directory : option string)
| Close (fd : nat)
| Stdout (text : string)
| Traceback (e : exn)
| PrintHelp
| PrintUsage (message : usage_error).

Record World : Type := {
  cwd : string;
  sockets : list sock_state;
  log : list event
}.

(** What happens in one round of the serve loop: a connection is ready,
    is accepted and handled, and the handler returns or raises; or a
    connection is ready and [accept] fails; or an exception is raised in the
    loop itself, as [KeyboardInterrupt] is when the user interrupts the
    process while it waits; or a connection is accepted and its handler never
    returns, as with a client that stays connected and sends nothing (the
    handler has no timeout). *)
Inductive loop_event : Type :=
| Connection (raised : option exn)
| AcceptError
| Interrupt (e : exn)
| Stalled.

(** The host: the environment variables, the answer of the operating system
    to each call, the port that the kernel picks for a socket bound to port 0,
    and the sequence of things that happen once the server is running. *)
Record Env : Type := {
  environ : string -> option string;
  chdir_result : string -> string -> exn + string;
  socket_result : option exn;
  bind_result : string -> Z -> option exn;
  ephemeral_port : Z;
  listen_result : option exn;
  serve_script : list loop_event
}.

Definition M (A : Type) : Type := Env -> World -> completion A * World.

Definition ret {A} (a : A) : M A := fun _ w => (Returns a, w).

Definition bind {A B} (c : M A) (k : A -> M B) : M B :=
  fun env w =>
    match c env w with
    | (Returns a, w1) => k a env w1
    | (Raises e, w1) => (Raises e, w1)
    | (Blocks, w1) => (Blocks, w1)
    end.

Definition raise {A} (e : exn) : M A := fun _ w => (Raises e, w).

Definition blocks {A} : M A := fun _ w => (Blocks, w).

Definition ask : M Env := fun env w => (Returns env, w).

Definition get : M World := fun _ w => (Returns w, w).

Declare Scope py_scope.
Delimit Scope py_scope with py.
Notation "x <- c ;; k" := (bind c (fun x => k))
  (at level 61, c at next level, right associativity) : py_scope.
Notation "c ;; k" := (bind c (fun _ => k))
  (at level 61, right associativity) : py_scope.
Local Open Scope py_scope.

(** [try: body / except BaseException as e: handler e]; a handler that does
    not deal with [e] raises it again. *)
Definition try_catch {A} (body : M A) (handler : exn -> M A) : M A :=
  fun env w =>
    match body env w with
    | (Raises e, w1) => handler e env w1
    | r => r
    end.

(** [try: body / except <class>: handler] *)
Definition try_except {A} (body : M A) (class : exn -> bool) (handler : M A) : M A :=
  try_catch body (fun e => if class e then handler else raise e).

(** [try: body / except: cleanup; raise] *)
Definition try_except_reraise {A} (body : M A) (cleanup : M unit) : M A :=
  try_catch body (fun e => cleanup ;; raise e).

(** [with ctx as x: body], for a context manager whose [__enter__] returns
    the manager itself and whose [__exit__] returns [None]: [exit_] runs when
    the body returns and when it raises, and the exception of the body is
    raised again afterwards. *)
Definition with_ {R A} (ctx : M R) (exit_ : R -> M unit) (body : R -> M A) : M A :=
  fun env w =>
    match ctx env w with
    | (Returns r, w1) =>
        match body r env w1 with
        | (Returns a, w2) =>
            match exit_ r env w2 with
            | (Returns _, w3) => (Returns a, w3)
            | (Raises e, w3) => (Raises e, w3)
            | (Blocks, w3) => (Blocks, w3)
            end
        | (Raises e, w2) =>
            match exit_ r env w2 with
            | (Returns _, w3) => (Raises e, w3)
            | (Raises e', w3) => (Raises e', w3)
            | (Blocks, w3) => (Blocks, w3)
            end
        | (Blocks, w2) => (Blocks, w2)
        end
    | (Raises e, w1) => (Raises e, w1)
    | (Blocks, w1) => (Blocks, w1)
    end.

Definition emit (e : event) : M unit :=
  fun _ w => (Returns tt, {| cwd := cwd w; sockets := sockets w; log := log w ++ [e] |}).

Definition set_cwd (dir : string) : M unit :=
  fun _ w => (Returns tt, {| cwd := dir; sockets := sockets w; log := log w |}).

Fixpoint update {A} (l : list A) (i : nat) (a : A) : list A :=
  match l, i with
  | [], _ => []
  | _ :: l', O => a :: l'
  | x :: l', S i' => x :: update l' i' a
  end.

Definition set_socket (fd : nat) (s : sock_state) : M unit :=
  fun _ w => (Returns tt, {| cwd := cwd w; sockets := update (sockets w) fd s; log := log w |}).

Definition new_socket (s : sock_state) : M nat :=
  fun _ w => (Returns (length (sockets w)),
              {| cwd := cwd w; sockets := sockets w ++ [s]; log := log w |}).

(** [os.chdir(path)]; a list is not a path. *)
Definition os_chdir (path : stored string) : M unit :=
  match path with
  | value path =>
      emit (Chdir path) ;;
      env <- ask ;;
      w <- get ;;
      match chdir_result env (cwd w) path with
      | inl e => raise e
      | inr dir => set_cwd dir
      end
  | empty_list => raise TypeError
  end.

(** [os.getcwd()] *)
Definition os_getcwd : M string := fun _ w => (Returns (cwd w), w).

(** [print(s)]: the text and a line feed on standard output, which takes
    whatever is written to it. *)
Definition print (s : string) : M unit := emit (Stdout (s ++ LF)).

(** The address a host name stands for in [bind]: the empty string is
    [INADDR_ANY], all the interfaces of the machine. *)
Definition interface (host : string) : string :=
  if String.eqb host "" then "0.0.0.0" else host.

(** [socket.socket(AF_INET, SOCK_STREAM)] *)
Definition socket_socket : M nat :=
  env <- ask ;;
  match socket_result env with
  | Some e => raise e
  | None => fd <- new_socket Unbound ;; emit (Socket fd) ;; ret fd
  end.

(** The port of a socket after [bind]: the port asked for, or, when that
    is 0, a free port of the kernel's choice. *)
Definition bound_port (env : Env) (port : Z) : Z :=
  if Z.eqb port 0 then ephemeral_port env else port.

(** [sock.bind((host, port))]; a list is not a port. *)
Definition socket_bind (fd : nat) (address : string * stored Z) : M unit :=
  match address with
  | (host, value port) =>
      emit (Bind fd host port) ;;
      env <- ask ;;
      match bind_result env host port with
      | Some e => raise e
      | None => set_socket fd (Bound (interface host) (bound_port env port))
      end
  | (_, empty_list) => raise TypeError
  end.

(** [sock.getsockname()]: the address the socket is bound to, which is
    [('0.0.0.0', 0)] for a socket that is not bound. *)
Definition socket_getsockname (fd : nat) : M (string * stored Z) :=
  w <- get ;;
  match nth_error (sockets w) fd with
  | Some (Bound ip port) | Some (Listening ip port) => ret (ip, value port)
  | _ => ret ("0.0.0.0", value 0%Z)
  end.

(** [sock.listen(backlog)] *)
Definition socket_listen (fd : nat) : M unit :=
  emit (Listen fd) ;;
  env <- ask ;;
  w <- get ;;
  match listen_result env with
  | Some e => raise e
  | None =>
      match nth_error (sockets w) fd with
      | Some (Bound ip port) => set_socket fd (Listening ip port)
      | _ => ret tt
      end
  end.

(** [sock.accept()] on a connection that is ready. *)
Definition socket_accept (fd : nat) : M nat :=
  conn <- new_socket Connected ;;
  emit (Accept fd conn) ;;
  ret conn.

(** [sock.close()], which does not fail. *)
Definition socket_close (fd : nat) : M unit :=
  emit (Close fd) ;;
  set_socket fd Closed.

End Os.
Export Os.
Local Open Scope py_scope.

(** ** [socketserver]

    [TCPServer] and the loop of [serve_forever], after [socketserver.py] of
    CPython 3.11. The server handles one connection at a time. *)

Module Socketserver.

Record server : Type := {
  server_address : string * stored Z;
  RequestHandlerClass : handler_class;
  socket : nat
}.

(** [server_bind]: the socket is bound to [server_address], which then
    becomes the address that [getsockname()] reports. The server with the new
    attribute is returned. *)
Definition server_bind (self : server) : M server :=
  socket_bind (socket self) (server_address self) ;;
  address <- socket_getsockname (socket self) ;;
  ret {| server_address := address;
         RequestHandlerClass := RequestHandlerClass self;
         socket := socket self |}.

Definition server_activate (self : server) : M unit :=
  socket_listen (socket self).

Definition server_close (self : server) : M unit :=
  socket_close (socket self).

(** [TCPServer.__init__(server_address, RequestHandlerClass)] *)
Definition TCPServer (address : string * stored Z) (handler : handler_class) : M server :=
  sock <- socket_socket ;;
  let self := {| server_address := address; RequestHandlerClass := handler; socket := sock |} in
  try_except_reraise
    (self <- server_bind self ;; server_activate self ;; ret self)
    (server_close self).

Definition __exit__ (self : server) : M unit := server_close self.

(** [shutdown_request]: [request.shutdown(SHUT_WR)], where an [OSError] is
    passed over, then [request.close()]. *)
Definition shutdown_request (request : nat) : M unit := socket_close request.

(** [handle_error]: a traceback on standard error. *)
Definition handle_error (e : exn) : M unit := emit (Traceback e).

(** How the handler of a connection ends: it returns, an exception leaves
    it, or it never returns. *)
Definition handler_ends (raised : option exn) : completion unit :=
  match raised with
  | Some e => Raises e
  | None => Returns tt
  end.

(** [finish_request]: an instance of the handler class deals with the
    connection. [SimpleHTTPRequestHandler], given no [directory], serves from
    [os.getcwd()]. [handled] is the way the handler ends. *)
Definition finish_request (self : server) (request : nat) (handled : completion unit) : M unit :=
  directory <- match RequestHandlerClass self with
               | SimpleHTTPRequestHandler => d <- os_getcwd ;; ret (Some d)
               | BaseHTTPRequestHandler => ret None
               end ;;
  emit (Handle request (RequestHandlerClass self) directory) ;;
  match handled with
  | Returns _ => ret tt
  | Raises e => raise e
  | Blocks => blocks
  end.

Definition process_request (self : server) (request : nat) (handled : completion unit) : M unit :=
  finish_request self request handled ;;
  shutdown_request request.

(** [_handle_request_noblock]; [accepted] is [None] when [get_request] raises
    [OSError]. *)
Definition handle_request_noblock (self : server) (accepted : option (completion unit)) : M unit :=
  match accepted with
  | None => ret tt
  | Some handled =>
      request <- socket_accept (socket self) ;;
      try_catch (process_request self request handled)
        (fun e =>
           if isinstance_Exception e
           then handle_error e ;; shutdown_request request
           else shutdown_request request ;; raise e)
  end.

(** The loop of [serve_forever] over what happens to the server. Nothing
    ever calls [shutdown], so the loop ends by an exception or not at all. *)
Fixpoint serve_loop (self : server) (script : list loop_event) : M unit :=
  match script with
  | [] => blocks
  | Interrupt e :: _ => raise e
  | AcceptError :: rest =>
      handle_request_noblock self None ;; serve_loop self rest
  | Connection raised :: rest =>
      handle_request_noblock self (Some (handler_ends raised)) ;; serve_loop self rest
  | Stalled :: rest =>
      handle_request_noblock self (Some Blocks) ;; serve_loop self rest
  end.

Definition serve_forever (self : server) : M unit :=
  env <- ask ;;
  serve_loop self (serve_script env).

End Socketserver.
Export Socketserver.

(** ** [argparse]

    The parser that [start.py] builds, and [parse_args] on it, after
    [argparse.py] of CPython 3.11. The parser has no positional argument, no
    subparser and no mutually exclusive group, and the code for those is left
    out. Strings are sequences of characters with codes below 256, among
    which the digits are the ten ASCII digits. *)

Module Argparse.

Record Namespace : Type := {
  port : stored Z;
  directory : stored string
}.

Inductive dest : Type :=
| dest_port
| dest_directory.

Inductive action : Type :=
| HelpAction
| StoreAction (d : dest).

(** [ArgumentParser(description=...)] registers [-h] and [--help]; the two
    calls of [add_argument] register [--port] and [--directory]. *)
Definition option_string_actions : list (string * action) :=
  [ ("-h", HelpAction);
    ("--help", HelpAction);
    ("--port", StoreAction dest_port);
    ("--directory", StoreAction dest_directory) ].

(** The defaults: [default=8000] and [default="."]. *)
Definition defaults : Namespace :=
  {| port := value 8000%Z; directory := value "." |}.

Definition lookup (option_string : string) : option action :=
  match find (fun p => String.eqb (fst p) option_string) option_string_actions with
  | Some (_, a) => Some a
  | None => None
  end.

(** [s.split('=', 1)] when ['=' in s] *)
Fixpoint split_eq (s : string) : option (string * string) :=
  match s with
  | EmptyString => None
  | String c r =>
      if Ascii.eqb c "=" then Some (EmptyString, r)
      else match split_eq r with
           | Some (a, b) => Some (String c a, b)
           | None => None
           end
  end.

Fixpoint contains_space (s : string) : bool :=
  match s with
  | EmptyString => false
  | String c r => Ascii.eqb c " " || contains_space r
  end.

Definition is_digit (c : ascii) : bool :=
  let n := nat_of_ascii c in (48 <=? n)%nat && (n <=? 57)%nat.

Fixpoint all_digits (s : string) : bool :=
  match s with
  | EmptyString => true
  | String c r => is_digit c && all_digits r
  end.

Definition digits1 (s : string) : bool :=
  negb (String.eqb s "") && all_digits s.

Fixpoint skip_digits (s : string) : string :=
  match s with
  | EmptyString => EmptyString
  | String c r => if is_digit c then skip_digits r else s
  end.

Fixpoint drop_last_LF (s : string) : option string :=
  match s with
  | EmptyString => None
  | String c EmptyString => if Ascii.eqb c (ascii_of_nat 10) then Some EmptyString else None
  | String c r =>
      match drop_last_LF r with
      | Some r' => Some (String c r')
      | None => None
      end
  end.

Definition negative_number_core (s : string) : bool :=
  match s with
  | String "-" r =>
      digits1 r ||
      match skip_digits r with
      | String "." f => digits1 f
      | _ => false
      end
  | _ => false
  end.

(** [_negative_number_matcher.match(s)], for ['^-\d+$|^-\d*\.\d+$']; the
    dollar also matches before a line feed that ends the string. *)
Definition negative_number (s : string) : bool :=
  negative_number_core s ||
  match drop_last_LF s with
  | Some s' => negative_number_core s'
  | None => false
  end.

(** An option found in an argument string: the action ([None] for a string
    that looks like an option and is none of the parser), the option string
    and the explicit argument. *)
Definition option_tuple : Type := option action * string * option string.

(** [_get_option_tuples], with [allow_abbrev] *)
Definition get_option_tuples (arg_string : string) : list option_tuple :=
  match arg_string with
  | String "-" (String "-" _) =>
      let (option_prefix, explicit_arg) :=
        match split_eq arg_string with
        | Some (p, e) => (p, Some e)
        | None => (arg_string, None)
        end in
      map (fun p => (Some (snd p), fst p, explicit_arg))
          (filter (fun p => String.prefix option_prefix (fst p)) option_string_actions)
  | String "-" (String c short_explicit_arg) =>
      let short_option_prefix := String "-" (String c EmptyString) in
      flat_map
        (fun p =>
           if String.eqb (fst p) short_option_prefix
           then [(Some (snd p), fst p, Some short_explicit_arg)]
           else if String.prefix arg_string (fst p)
           then [(Some (snd p), fst p, None)]
           else [])
        option_string_actions
  | _ => []
  end.

(** [_parse_optional]: [inr None] for a string meant to be an argument *)
Definition parse_optional (arg_string : string) : usage_error + option option_tuple :=
  match arg_string with
  | EmptyString => inr None
  | String c _ =>
      if negb (Ascii.eqb c "-") then inr None
      else
        match lookup arg_string with
        | Some a => inr (Some (Some a, arg_string, None))
        | None =>
            if Nat.eqb (String.length arg_string) 1 then inr None
            else
              let before_eq :=
                match split_eq arg_string with
                | Some (option_string, explicit_arg) =>
                    match lookup option_string with
                    | Some a => Some (Some a, option_string, Some explicit_arg)
                    | None => None
                    end
                | None => None
                end in
              match before_eq with
              | Some t => inr (Some t)
              | None =>
                  match get_option_tuples arg_string with
                  | _ :: _ :: _ => inl (ambiguous_option arg_string)
                  | [t] => inr (Some t)
                  | [] =>
                      if negative_number arg_string then inr None
                      else if contains_space arg_string then inr None
                      else inr (Some (None, arg_string, None))
                  end
              end
        end
  end.

(** The letters of [arg_strings_pattern]: an argument, an option, or the
    first string of two dashes, after which every string is an argument. *)
Inductive pattern : Type :=
| Arg
| Opt (t : option_tuple)
| Dash.

Fixpoint classify (arg_strings : list string) : usage_error + list (string * pattern) :=
  match arg_strings with
  | [] => inr []
  | arg_string :: rest =>
      if String.eqb arg_string "--"
      then inr ((arg_string, Dash) :: map (fun s => (s, Arg)) rest)
      else
        match parse_optional arg_string with
        | inl err => inl err
        | inr t =>
            match classify rest with
            | inl err => inl err
            | inr ps => inr ((arg_string, match t with None => Arg | Some t => Opt t end) :: ps)
            end
        end
  end.

(** An action with the argument strings it is called on: [_HelpAction]
    has [nargs=0] and takes none, [_StoreAction] has [nargs=None] and takes
    one. *)
Inductive call : Type :=
| call_help
| call_store (d : dest) (arg_string : string).

(** The argument strings after an option without an explicit argument:
    [next] is the following string when it is an argument. The result is the
    action with its arguments and whether the following string is taken. *)
Definition match_following (a : action) (option_string : string) (next : option string)
  : usage_error + (list call * bool) :=
  match a with
  | HelpAction => inr ([call_help], false)
  | StoreAction d =>
      match next with
      | Some v => inr ([call_store d v], true)
      | None => inl (expected_one_argument option_string)
      end
  end.

Definition single_dash (option_string : string) : bool :=
  match option_string with
  | String _ (String c _) => negb (Ascii.eqb c "-")
  | _ => false
  end.

(** The loop of [consume_optional] for an option with an explicit argument:
    a single-dash option without arguments gives the rest of the string to
    the next single-dash option. *)
Fixpoint match_explicit (a : action) (option_string explicit_arg : string) (next : option string)
  : usage_error + (list call * bool) :=
  match a with
  | HelpAction =>
      match explicit_arg with
      | String c new_explicit_arg =>
          if single_dash option_string then
            let option_string' := String "-" (String c EmptyString) in
            match lookup option_string' with
            | Some a' =>
                let r := match new_explicit_arg with
                         | EmptyString => match_following a' option_string' next
                         | _ => match_explicit a' option_string' new_explicit_arg next
                         end in
                match r with
                | inl err => inl err
                | inr (calls, taken) => inr (call_help :: calls, taken)
                end
            | None => inl (ignored_explicit_argument explicit_arg)
            end
          else inl (ignored_explicit_argument explicit_arg)
      | EmptyString => inl (ignored_explicit_argument explicit_arg)
      end
  | StoreAction d => inr ([call_store d explicit_arg], false)
  end.

Definition consume_optional (a : action) (option_string : string)
    (explicit_arg : option string) (next : option string)
  : usage_error + (list call * bool) :=
  match explicit_arg with
  | Some e => match_explicit a option_string e next
  | None => match_following a option_string next
  end.

(** How parsing ends: with a namespace and the strings nobody took, with
    the help text, or with an error. *)
Inductive outcome : Type :=
| Done (namespace : Namespace) (extras : list string)
| Help
| Error (err : usage_error).

Section Parser.

(** The builtin [int] on a string; [None] when it raises [ValueError]. *)
Variable int : string -> option Z.

(** [take_action]. [_HelpAction] prints the help and exits. For
    [_StoreAction], [_get_values] first removes an argument string that is
    the string of two dashes: what is stored is then an empty list;
    otherwise the string goes through [type], [int] for the port and [str]
    for the directory, and the result is stored. *)
Definition take_action (namespace : Namespace) (c : call) : outcome :=
  match c with
  | call_help => Help
  | call_store dest_port v =>
      if String.eqb v "--"
      then Done {| port := empty_list; directory := directory namespace |} []
      else match int v with
           | Some n => Done {| port := value n; directory := directory namespace |} []
           | None => Error (invalid_int_value v)
           end
  | call_store dest_directory v =>
      if String.eqb v "--"
      then Done {| port := port namespace; directory := empty_list |} []
      else Done {| port := port namespace; directory := value v |} []
  end.

Fixpoint take_actions (namespace : Namespace) (cs : list call) : outcome :=
  match cs with
  | [] => Done namespace []
  | c :: cs' =>
      match take_action namespace c with
      | Done namespace' _ => take_actions namespace' cs'
      | r => r
      end
  end.

Definition next_argument (ps : list (string * pattern)) : option string :=
  match ps with
  | (v, Arg) :: _ => Some v
  | _ => None
  end.

(** The loop of [_parse_known_args] over the classified strings. *)
Fixpoint consume (ps : list (string * pattern)) (namespace : Namespace)
    (extras : list string) : outcome :=
  match ps with
  | [] => Done namespace extras
  | (s, Arg) :: rest => consume rest namespace (extras ++ [s])
  | (s, Dash) :: rest => consume rest namespace (extras ++ [s])
  | (s, Opt (None, _, _)) :: rest => consume rest namespace (extras ++ [s])
  | (s, Opt (Some a, option_string, explicit_arg)) :: rest =>
      match consume_optional a option_string explicit_arg (next_argument rest) with
      | inl err => Error err
      | inr (calls, taken) =>
          match take_actions namespace calls with
          | Done namespace' _ =>
              if taken
              then match rest with
                   | _ :: rest' => consume rest' namespace' extras
                   | [] => Done namespace' extras
                   end
              else consume rest namespace' extras
          | r => r
          end
      end
  end.

Definition parse_known_args (args : list string) : outcome :=
  match classify args with
  | inl err => Error err
  | inr ps => consume ps defaults []
  end.

(** [parser.exit(status)] *)
Definition exit {T} (status : Z) : M T := raise (SystemExit status).

(** [parser.error(message)] *)
Definition error {T} (message : usage_error) : M T :=
  emit (PrintUsage message) ;; exit 2.

Definition parse_args (args : list string) : M Namespace :=
  match parse_known_args args with
  | Done namespace [] => ret namespace
  | Done _ extras => error (unrecognized_arguments extras)
  | Help => emit PrintHelp ;; exit 0
  | Error err => error err
  end.

End Parser.

End Argparse.
Export Argparse.

(** ** [start.py] *)

Module Start.

(** [f"Serving static files from '{directory}' at http://localhost:{port}"] *)
Definition startup_message (directory : stored string) (port : stored Z) : string :=
  "Serving static files from '" ++ format_str directory
  ++ "' at http://localhost:" ++ format_int port.

(** ["\nShutting down the server."] *)
Definition shutdown_message : string := LF ++ "Shutting down the server.".

Definition serve_static (port : stored Z) (directory : stored string) : M unit :=
  os_chdir directory ;;
  let handler := SimpleHTTPRequestHandler in
  with_ (TCPServer ("", port) handler) __exit__ (fun httpd =>
    print (startup_message directory port) ;;
    try_except (serve_forever httpd) isinstance_KeyboardInterrupt
      (print shutdown_message)).

Section Main.

Variable int : string -> option Z.

(** The body of [if __name__ == "__main__":], on [sys.argv[1:]]. *)
Definition main (argv : list string) : M unit :=
  args <- parse_args int argv ;;
  serve_static (port args) (directory args).

End Main.

(** The exit status of the interpreter when the script completes. An
    exception that nobody handles ends the process with a traceback and
    status 1, [SystemExit] with its code, [KeyboardInterrupt] as the signal
    does (130 for the shell). *)
Definition exit_status (c : completion unit) : option Z :=
  match c with
  | Returns _ => Some 0%Z
  | Raises (SystemExit code) => Some code
  | Raises KeyboardInterrupt => Some 130%Z
  | Raises _ => Some 1%Z
  | Blocks => None
  end.

End Start.
Export Start.


(** ** Concrete hosts and the builtin [int] *)

Module Host.

Definition ENOENT : Z := 2.
Definition EADDRINUSE : Z := 98.

Definition OverflowError : exn := OtherException "OverflowError".

(** The names between the slashes of a path, from left to right; [name] is
    the part of the current name that has been read. *)
Fixpoint names_from (path name : string) : list string :=
  match path with
  | EmptyString => [name]
  | String c r =>
      if Ascii.eqb c "/" then name :: names_from r EmptyString
      else names_from r (name ++ String c EmptyString)
  end.

(** A directory is given by the names that lead to it from the root. *)
Definition names (path : string) : list string :=
  filter (fun name => negb (String.eqb name "")) (names_from path EmptyString).

Fixpoint is_prefix (l1 l2 : list string) : bool :=
  match l1, l2 with
  | [], _ => true
  | x :: l1', y :: l2' => String.eqb x y && is_prefix l1' l2'
  | _ :: _, [] => false
  end.

(** The directories of the machine are those of [dirs] and the ones above
    them. *)
Definition is_dir (dirs : list string) (dir : list string) : bool :=
  existsb (fun d => is_prefix dir (names d)) dirs.

(** Follows the names of a path from the directory [cur]: the empty name
    and [.] stay, [..] goes to the parent, which for the root is the root, and
    any other name goes down to a directory that has to exist. There are no
    links and no files. *)
Fixpoint walk (dirs : list string) (cur path : list string) : option (list string) :=
  match path with
  | [] => Some cur
  | name :: rest =>
      if String.eqb name "" || String.eqb name "." then walk dirs cur rest
      else if String.eqb name ".." then walk dirs (removelast cur) rest
      else if is_dir dirs (cur ++ [name])%list then walk dirs (cur ++ [name])%list rest
      else None
  end.

Definition absolute (dir : list string) : string :=
  match dir with
  | [] => "/"
  | _ => String.concat "" (map (fun name => "/" ++ name) dir)
  end.

(** Where [path] leads from the directory [cwd], if anywhere. *)
Definition resolve (dirs : list string) (cwd path : string) : option string :=
  if String.eqb path "" then None
  else
    match walk dirs (if String.prefix "/" path then [] else names cwd)
            (names_from path EmptyString) with
    | Some dir => if is_dir dirs dir then Some (absolute dir) else None
    | None => None
    end.

(** The first port from [port] on that is not in [busy]. *)
Fixpoint first_free (busy : list Z) (port : Z) (fuel : nat) : Z :=
  match fuel with
  | O => port
  | S fuel' =>
      if existsb (Z.eqb port) busy then first_free busy (port + 1) fuel' else port
  end.

(** A machine with the directories [dirs], where the ports [busy] are taken
    by other processes, and where [script] happens to a running server. The
    process may bind every free port from 0 to 65535; the kernel gives the
    first free port from 32768 on to a socket bound to port 0. *)
Definition host (dirs : list string) (busy : list Z) (script : list loop_event) : Env := {|
  environ := fun _ => None;
  chdir_result := fun cwd path =>
    match resolve dirs cwd path with
    | Some dir => inr dir
    | None => inl (OSError ENOENT)
    end;
  socket_result := None;
  bind_result := fun _ port =>
    if (port <? 0)%Z || (65535 <? port)%Z then Some OverflowError
    else if existsb (Z.eqb port) busy then Some (OSError EADDRINUSE)
    else None;
  ephemeral_port := first_free busy 32768 (length busy);
  listen_result := None;
  serve_script := script
|}.

(** A process that has just been started in [dir]. *)
Definition fresh (dir : string) : World :=
  {| cwd := dir; sockets := []; log := [] |}.

(** The characters that [int] passes over at both ends of its argument:
    tab to carriage return, the space, and the two spaces above 127, next
    line (133) and no-break space (160). *)
Definition is_space (c : ascii) : bool :=
  let n := nat_of_ascii c in
  ((9 <=? n)%nat && (n <=? 13)%nat) || (n =? 32)%nat || (n =? 133)%nat || (n =? 160)%nat.

Fixpoint lstrip (s : string) : string :=
  match s with
  | EmptyString => EmptyString
  | String c r => if is_space c then lstrip r else s
  end.

Fixpoint rstrip (s : string) : string :=
  match s with
  | EmptyString => EmptyString
  | String c r =>
      match rstrip r with
      | EmptyString => if is_space c then EmptyString else String c EmptyString
      | r' => String c r'
      end
  end.

(** Decimal digits, where an underscore may stand between two digits. *)
Fixpoint digits_value (s : string) (acc : Z) (after_digit : bool) : option Z :=
  match s with
  | EmptyString => if after_digit then Some acc else None
  | String c r =>
      if is_digit c
      then digits_value r (10 * acc + Z.of_nat (nat_of_ascii c - 48)) true
      else if Ascii.eqb c "_" && after_digit
      then digits_value r acc false
      else None
  end.

Fixpoint count_digits (s : string) : nat :=
  match s with
  | EmptyString => 0
  | String c r => (if is_digit c then 1 else 0) + count_digits r
  end.

(** [int(s)] for a string of characters with codes below 256: white space
    around an optional sign and decimal digits, of which there are at most
    4300 ([sys.get_int_max_str_digits()]). *)
Definition int (s : string) : option Z :=
  let number := rstrip (lstrip s) in
  if (4300 <? count_digits number)%nat then None
  else
    match number with
    | String "-" r => option_map Z.opp (digits_value r 0 false)
    | String "+" r => digits_value r 0 false
    | r => digits_value r 0 false
    end.

End Host.

(** ** What a run leaves behind *)

Local Open Scope list_scope.

Module Trace.

(** The world after the calls [evs] that leave directory and sockets alone. *)
Definition logged (w : World) (evs : list event) : World :=
  {| cwd := cwd w; sockets := sockets w; log := log w ++ evs |}.

(** The texts written to standard output, in order. *)
Definition stdout (evs : list event) : list string :=
  flat_map (fun ev => match ev with Stdout text => [text] | _ => [] end) evs.

(** Does the exception that leaves a request handler leave the serve loop? *)
Definition escapes (raised : option exn) : bool :=
  match raised with
  | Some e => negb (isinstance_Exception e)
  | None => false
  end.

(** The exception that ends the serve loop, if any does; none does once a
    handler never returns. *)
Fixpoint loop_raises (script : list loop_event) : option exn :=
  match script with
  | [] => None
  | Interrupt e :: _ => Some e
  | AcceptError :: rest => loop_raises rest
  | Connection raised :: rest =>
      if escapes raised then raised else loop_raises rest
  | Stalled :: _ => None
  end.

Definition loop_completion (script : list loop_event) : completion unit :=
  match loop_raises script with
  | Some e => Raises e
  | None => Blocks
  end.

(** The number of connections accepted before the loop ends. *)
Fixpoint connections (script : list loop_event) : nat :=
  match script with
  | [] => 0
  | Interrupt _ :: _ => 0
  | AcceptError :: rest => connections rest
  | Connection raised :: rest =>
      S (if escapes raised then 0 else connections rest)
  | Stalled :: _ => 1
  end.

(** The sockets of these connections, as the loop leaves them: closed, but
    for the connection whose handler never returns. *)
Fixpoint loop_sockets (script : list loop_event) : list sock_state :=
  match script with
  | [] => []
  | Interrupt _ :: _ => []
  | AcceptError :: rest => loop_sockets rest
  | Connection raised :: rest =>
      Closed :: (if escapes raised then [] else loop_sockets rest)
  | Stalled :: _ => [Connected]
  end.

Definition handler_directory (h : handler_class) (dir : string) : option string :=
  match h with
  | SimpleHTTPRequestHandler => Some dir
  | BaseHTTPRequestHandler => None
  end.

(** The calls made for one connection, numbered [conn], by a server whose
    process is in [dir], when the handler returns or raises. *)
Definition connection_events (self : server) (dir : string) (conn : nat)
    (raised : option exn) : list event :=
  [Accept (socket self) conn;
   Handle conn (RequestHandlerClass self) (handler_directory (RequestHandlerClass self) dir)]
  ++ match raised with
     | Some e => if isinstance_Exception e then [Traceback e] else []
     | None => []
     end
  ++ [Close conn].

(** The calls made by the serve loop. *)
Fixpoint loop_events (self : server) (dir : string) (conn : nat)
    (script : list loop_event) : list event :=
  match script with
  | [] => []
  | Interrupt _ :: _ => []
  | AcceptError :: rest => loop_events self dir conn rest
  | Connection raised :: rest =>
      connection_events self dir conn raised
      ++ (if escapes raised then [] else loop_events self dir (S conn) rest)
  | Stalled :: _ =>
      [Accept (socket self) conn;
       Handle conn (RequestHandlerClass self) (handler_directory (RequestHandlerClass self) dir)]
  end.

(** An event of the serve loop of [self]: it concerns a connection, never
    the working directory, the listening socket or standard output. *)
Definition of_loop (self : server) (dir : string) (ev : event) : Prop :=
  match ev with
  | Accept fd conn => fd = socket self /\ socket self < conn
  | Handle conn h d =>
      socket self < conn /\ h = RequestHandlerClass self /\ d = handler_directory h dir
  | Close fd => socket self < fd
  | Traceback _ => True
  | _ => False
  end.

(** The server that [serve_static] builds on the socket [fd], once the
    socket is bound to [port]. *)
Definition httpd (port : Z) (fd : nat) : server :=
  {| server_address := ("0.0.0.0", value port);
     RequestHandlerClass := SimpleHTTPRequestHandler;
     socket := fd |}.

(** The calls of [serve_static (value port) (value directory)] up to the
    serve loop, when none of them fails. *)
Definition startup_events (directory : string) (port : Z) (fd : nat) : list event :=
  [Chdir directory; Socket fd; Bind fd "" port; Listen fd;
   Stdout (startup_message (value directory) (value port) ++ LF)].

(** Its calls when [e] ends the serve loop. *)
Definition shutdown_events (e : exn) (fd : nat) : list event :=
  (if isinstance_KeyboardInterrupt e then [Stdout (shutdown_message ++ LF)] else [])
  ++ [Close fd].

(** An event of [serve_static (value port) (value directory)] that reads
    its configuration reads the values the function was called with. *)
Definition reads_configuration (port : Z) (directory : string) (ev : event) : Prop :=
  match ev with
  | Chdir path => path = directory
  | Bind _ host q => host = "" /\ q = port
  | Stdout text =>
      text = (startup_message (value directory) (value port) ++ LF)%string \/
      text = (shutdown_message ++ LF)%string
  | _ => True
  end.

(** Where in [serve_static] an exception is raised. *)
Inductive stage : Type :=
| Startup
| ServeLoop.

(** [raised port directory env w st e]: in the run of
    [serve_static (value port) (value directory)] from [w], [e] is raised by
    [os.chdir] or by the construction of the server ([Startup]), or by
    [serve_forever] ([ServeLoop]). *)
Inductive raised (port : Z) (directory : string) (env : Env) (w : World)
  : stage -> exn -> Prop :=
| raised_by_chdir e w1 :
    os_chdir (value directory) env w = (Raises e, w1) ->
    raised port directory env w Startup e
| raised_by_TCPServer e w1 w2 :
    os_chdir (value directory) env w = (Returns tt, w1) ->
    TCPServer ("", value port) SimpleHTTPRequestHandler env w1 = (Raises e, w2) ->
    raised port directory env w Startup e
| raised_by_serve_forever e w1 server w2 w3 w4 :
    os_chdir (value directory) env w = (Returns tt, w1) ->
    TCPServer ("", value port) SimpleHTTPRequestHandler env w1 = (Returns server, w2) ->
    print (startup_message (value directory) (value port)) env w2 = (Returns tt, w3) ->
    serve_forever server env w3 = (Raises e, w4) ->
    raised port directory env w ServeLoop e.

End Trace.
Export Trace.

(** ** Command lines *)

Module Cli.

(** The host [env] with other environment variables. *)
Definition with_environ (env : Env) (vars : string -> option string) : Env :=
  {| environ := vars;
     chdir_result := chdir_result env;
     socket_result := socket_result env;
     bind_result := bind_result env;
     ephemeral_port := ephemeral_port env;
     listen_result := listen_result env;
     serve_script := serve_script env |}.

Definition pattern_of (t : option option_tuple) : pattern :=
  match t with
  | None => Arg
  | Some t => Opt t
  end.

(** A string that [argparse] takes for an argument and not for an option. *)
Definition is_argument (s : string) : bool :=
  negb (String.eqb s "--") &&
  match parse_optional s with
  | inr None => true
  | _ => false
  end.

(** A string in which [argparse] finds the help option. *)
Definition help_option (arg_string : string) : Prop :=
  exists option_string explicit_arg,
    parse_optional arg_string = inr (Some (Some HelpAction, option_string, explicit_arg)).

(** A string in which [argparse] finds the port option: [--port] or an
    abbreviation of it, with the explicit argument that comes after an equals
    sign if there is one. *)
Definition port_option (arg_string : string) (explicit_arg : option string) : Prop :=
  exists option_string,
    parse_optional arg_string =
    inr (Some (Some (StoreAction dest_port), option_string, explicit_arg)).

(** One use of an option of [start.py], with the text of its value. *)
Inductive setting : Type :=
| set_port (text : string)
| set_directory (text : string).

Definition text_of (s : setting) : string :=
  match s with
  | set_port text | set_directory text => text
  end.

(** The strings on the command line for a setting. *)
Definition render (s : setting) : list string :=
  match s with
  | set_port text => ["--port"; text]
  | set_directory text => ["--directory"; text]
  end.

(** The strings of a list of settings, classified. *)
Definition classified (s : setting) : list (string * pattern) :=
  match s with
  | set_port text =>
      [("--port"%string, Opt (Some (StoreAction dest_port), "--port"%string, None));
       (text, Arg)]
  | set_directory text =>
      [("--directory"%string,
        Opt (Some (StoreAction dest_directory), "--directory"%string, None));
       (text, Arg)]
  end.

(** The namespace after the settings, each applied in turn; or the text of
    the first port that [int] refuses. *)
Fixpoint configure (int : string -> option Z) (namespace : Namespace)
    (settings : list setting) : string + Namespace :=
  match settings with
  | [] => inr namespace
  | set_port text :: rest =>
      match int text with
      | Some n =>
          configure int {| port := value n; directory := directory namespace |} rest
      | None => inl text
      end
  | set_directory text :: rest =>
      configure int {| port := port namespace; directory := value text |} rest
  end.

(** The claim that a server that keeps running listens on the port that
    [serve_static] was called with. *)
Definition listens_on_given_port (port : Z) : Prop :=
  forall directory env w,
    let r := serve_static (value port) (value directory) env w in
    fst r = Blocks ->
    nth_error (sockets (snd r)) (length (sockets w)) =
    Some (Listening "0.0.0.0" port).

(** The claim that every command line ends in a call of [serve_static]. *)
Definition always_serves (int : string -> option Z) (argv : list string) : Prop :=
  forall env w, exists p d, main int argv env w = serve_static p d env w.

(** The claim that a command line ends in a usage error. *)
Definition ends_in_usage_error (int : string -> option Z) (argv : list string) : Prop :=
  forall env w, fst (main int argv env w) = Raises (SystemExit 2).

(** Parsing that does not lead to [serve_static]: strings are left over, or
    one of the strings [seen] is the help option, or there is an error. *)
Definition rejected (seen : list string) (o : outcome) : Prop :=
  match o with
  | Done _ extras => extras <> []
  | Help => exists h, In h seen /\ help_option h
  | Error _ => True
  end.

(** A classified string that is not the string of two dashes. *)
Definition well_classified (x : string * pattern) : Prop :=
  fst x <> "--"%string /\
  exists t, parse_optional (fst x) = inr t /\ snd x = pattern_of t.

(** The rest of a command line that spoils it: no option takes its first
    string for an argument, and consuming it ends in an error or leaves
    strings over. *)
Definition poisoned (int : string -> option Z) (tail : list (string * pattern)) : Prop :=
  next_argument tail = None /\
  forall namespace extras,
    match consume int tail namespace extras with
    | Done _ extras' => extras' <> []
    | Help => False
    | Error _ => True
    end.

End Cli.
Export Cli.

(** ** More about the runs and the command lines *)

Module More.

(** The host [env] on which [script] happens to a running server. *)
Definition with_script (env : Env) (script : list loop_event) : Env :=
  {| environ := environ env;
     chdir_result := chdir_result env;
     socket_result := socket_result env;
     bind_result := bind_result env;
     ephemeral_port := ephemeral_port env;
     listen_result := listen_result env;
     serve_script := script |}.

(** A round of the serve loop that does not end it. *)
Definition goes_on (ev : loop_event) : bool :=
  match ev with
  | Connection raised => negb (escapes raised)
  | AcceptError => true
  | Interrupt _ => false
  | Stalled => false
  end.

(** Does the serve loop come to a handler that never returns? *)
Fixpoint stalls (script : list loop_event) : bool :=
  match script with
  | [] => false
  | Interrupt _ :: _ => false
  | AcceptError :: rest => stalls rest
  | Connection raised :: rest => negb (escapes raised) && stalls rest
  | Stalled :: _ => true
  end.


(** Parsing that leaves nothing for [serve_static]: it does not end with a
    namespace and no string over. *)
Definition turned_down (o : outcome) : Prop :=
  match o with
  | Done _ extras => extras <> []
  | Help | Error _ => True
  end.

End More.
Export More.

(** ** Runs on a concrete host *)

Example run_until_interrupted :
  main Host.int ["--port"; "8080"; "--directory"; "www"]%string
    (Host.host ["/srv/www"%string] []
       [Connection None; Connection (Some (OtherException "ValueError"));
        Interrupt KeyboardInterrupt])
    (Host.fresh "/srv") =
  (Returns tt,
   {| cwd := "/srv/www";
      sockets := [Closed; Closed; Closed];
      log := [Chdir "www"; Socket 0; Bind 0 "" 8080; Listen 0;
              Stdout (startup_message (value "www"%string) (value 8080%Z) ++ LF);
              Accept 0 1; Handle 1 SimpleHTTPRequestHandler (Some "/srv/www"%string);
              Close 1;
              Accept 0 2; Handle 2 SimpleHTTPRequestHandler (Some "/srv/www"%string);
              Traceback (OtherException "ValueError"); Close 2;
              Stdout (shutdown_message ++ LF); Close 0] |}).
Proof. reflexivity. Qed.

Example run_startup_message :
  startup_message (value "www"%string) (value 8080%Z) =
  "Serving static files from 'www' at http://localhost:8080"%string.
Proof. reflexivity. Qed.

Example run_port_in_use :
  main Host.int [] (Host.host ["/srv"%string] [8000%Z] []) (Host.fresh "/srv") =
  (Raises (OSError Host.EADDRINUSE),
   {| cwd := "/srv";
      sockets := [Closed];
      log := [Chdir "."; Socket 0; Bind 0 "" 8000; Close 0] |}).
Proof. reflexivity. Qed.

Example run_missing_directory :
  main Host.int ["--dir=/nowhere"%string] (Host.host ["/srv"%string] [] [])
    (Host.fresh "/srv") =
  (Raises (OSError Host.ENOENT),
   {| cwd := "/srv"; sockets := []; log := [Chdir "/nowhere"] |}).
Proof. reflexivity. Qed.

(** With port 0 the kernel picks the port, and the startup line still
    names port 0. *)
Example run_serving_forever :
  main Host.int ["--port=0"%string] (Host.host ["/srv"%string] [] [Connection None])
    (Host.fresh "/srv") =
  (Blocks,
   {| cwd := "/srv";
      sockets := [Listening "0.0.0.0" 32768; Closed];
      log := [Chdir "."; Socket 0; Bind 0 "" 0; Listen 0;
              Stdout (startup_message (value "."%string) (value 0%Z) ++ LF);
              Accept 0 1; Handle 1 SimpleHTTPRequestHandler (Some "/srv"%string);
              Close 1] |}).
Proof. reflexivity. Qed.

(** A client that connects and sends nothing keeps the server in the
    handler of its connection: what comes after is not served. *)
Example run_stalled :
  main Host.int ["--directory"; "../www/"]%string
    (Host.host ["/srv/www"%string; "/srv/tmp"%string] []
       [Connection None; Stalled; Connection None; Interrupt KeyboardInterrupt])
    (Host.fresh "/srv/tmp") =
  (Blocks,
   {| cwd := "/srv/www";
      sockets := [Listening "0.0.0.0" 8000; Closed; Connected];
      log := [Chdir "../www/"; Socket 0; Bind 0 "" 8000; Listen 0;
              Stdout (startup_message (value "../www/"%string) (value 8000%Z) ++ LF);
              Accept 0 1; Handle 1 SimpleHTTPRequestHandler (Some "/srv/www"%string);
              Close 1;
              Accept 0 2; Handle 2 SimpleHTTPRequestHandler (Some "/srv/www"%string)] |}).
Proof. reflexivity. Qed.

Example run_port_out_of_range :
  main Host.int ["--port"; "65536"]%string (Host.host ["/srv"%string] [] [])
    (Host.fresh "/srv") =
  (Raises Host.OverflowError,
   {| cwd := "/srv";
      sockets := [Closed];
      log := [Chdir "."; Socket 0; Bind 0 "" 65536; Close 0] |}).
Proof. reflexivity. Qed.

(** With [--port=--] the namespace holds an empty list for the port:
    [serve_static] is called, changes the directory, and fails in [bind]. *)
Example run_port_is_a_list :
  main Host.int ["--port=--"%string] (Host.host ["/srv"%string] [] [])
    (Host.fresh "/srv") =
  (Raises TypeError,
   {| cwd := "/srv";
      sockets := [Closed];
      log := [Chdir "."; Socket 0; Close 0] |}).
Proof. reflexivity. Qed.

Example run_directory_is_a_list :
  main Host.int ["--directory=--"%string] (Host.host ["/srv"%string] [] [])
    (Host.fresh "/srv") =
  (Raises TypeError, Host.fresh "/srv").
Proof. reflexivity. Qed.

Example parse_examples :
  map (parse_known_args Host.int)
    [ []; ["--port"; "80"; "--dir=x"]; ["--port"; "-5"]; ["--port"; " 8_080 "];
      ["-h"]; ["-hh"]; ["-h=h"]; ["--he"]; ["foo"; "--help"];
      ["--help"; "--port"; "abc"]; ["--port"; "abc"; "--help"];
      ["--port"]; ["--port"; "--directory"]; ["--port"; "--"; "5"];
      ["--port=1"; "x"]; ["--port"; "5"; "--"]; ["--"; "--port"; "1"]; ["-x"];
      ["-hx"]; ["-h="]; ["--=x"; "-h"]; ["--help=1"]; ["--port="];
      ["--port=--"]; ["--directory=--"]; ["--directory"; "-"];
      ["--directory"; "-1.5"]; ["--p"; "1"; "--d"; "y"] ]%string =
  [ Done {| port := value 8000%Z; directory := value "."%string |} [];
    Done {| port := value 80%Z; directory := value "x"%string |} [];
    Done {| port := value (-5)%Z; directory := value "."%string |} [];
    Done {| port := value 8080%Z; directory := value "."%string |} [];
    Help; Help; Help; Help; Help; Help;
    Error (invalid_int_value "abc");
    Error (expected_one_argument "--port");
    Error (expected_one_argument "--port");
    Error (expected_one_argument "--port");
    Done {| port := value 1%Z; directory := value "."%string |} ["x"%string];
    Done {| port := value 5%Z; directory := value "."%string |} ["--"%string];
    Done defaults ["--"; "--port"; "1"]%string;
    Done defaults ["-x"%string];
    Error (ignored_explicit_argument "x");
    Error (ignored_explicit_argument "");
    Error (ambiguous_option "--=x");
    Error (ignored_explicit_argument "1");
    Error (invalid_int_value "");
    Done {| port := empty_list; directory := value "."%string |} [];
    Done {| port := value 8000%Z; directory := empty_list |} [];
    Done {| port := value 8000%Z; directory := value "-"%string |} [];
    Done {| port := value 8000%Z; directory := value "-1.5"%string |} [];
    Done {| port := value 1%Z; directory := value "y"%string |} [] ].
Proof. reflexivity. Qed.

(** ** The serve loop *)

Lemma update_middle {T} (l r : list T) (a b : T) :
  update (l ++ a :: r) (length l) b = l ++ b :: r.
Proof.
  induction l as [|x l IH]; simpl; [reflexivity | now rewrite IH].
Qed.

Lemma update_last {T} (l : list T) (a b : T) :
  update (l ++ [a]) (length l) b = l ++ [b].
Proof. apply update_middle. Qed.

Lemma nth_error_middle {T} (l r : list T) (a : T) :
  nth_error (l ++ a :: r) (length l) = Some a.
Proof.
  induction l as [|x l IH]; simpl; [reflexivity | exact IH].
Qed.

Lemma handle_connection (self : server) (raised : option exn) (env : Env) (w : World) :
  handle_request_noblock self (Some (handler_ends raised)) env w =
  (if escapes raised
   then match raised with Some e => Raises e | None => Returns tt end
   else Returns tt,
   {| cwd := cwd w;
      sockets := sockets w ++ [Closed];
      log := log w ++ connection_events self (cwd w) (length (sockets w)) raised |}).
Proof.
  unfold handle_request_noblock, socket_accept, try_catch, process_request,
    finish_request, shutdown_request, handle_error, socket_close, new_socket,
    set_socket, os_getcwd, emit, bind, ret, raise, connection_events,
    handler_directory, escapes, handler_ends.
  destruct self as [addr h fd]; simpl.
  destruct h, raised as [[ | code | errno | name]|]; simpl;
    rewrite update_last, <- ?app_assoc; reflexivity.
Qed.

(** In the handler that never returns the connection stays open. *)
Lemma handle_stalled (self : server) (env : Env) (w : World) :
  handle_request_noblock self (Some Blocks) env w =
  (Blocks,
   {| cwd := cwd w;
      sockets := sockets w ++ [Connected];
      log := log w ++ [Accept (socket self) (length (sockets w));
                       Handle (length (sockets w)) (RequestHandlerClass self)
                         (handler_directory (RequestHandlerClass self) (cwd w))] |}).
Proof.
  unfold handle_request_noblock, socket_accept, try_catch, process_request,
    finish_request, new_socket, os_getcwd, emit, bind, ret, blocks,
    handler_directory.
  destruct self as [addr h fd]; simpl.
  destruct h; simpl; rewrite <- ?app_assoc; reflexivity.
Qed.

Lemma serve_loop_run (self : server) (script : list loop_event) (env : Env) :
  forall w : World,
    serve_loop self script env w =
    (loop_completion script,
     {| cwd := cwd w;
        sockets := sockets w ++ loop_sockets script;
        log := log w ++ loop_events self (cwd w) (length (sockets w)) script |}).
Proof.
  induction script as [|ev script IH]; intros w.
  - destruct w; simpl. now rewrite !app_nil_r.
  - destruct ev as [raised| |e|].
    + cbn [serve_loop]. unfold bind. rewrite handle_connection.
      unfold loop_completion. cbn [loop_raises loop_sockets loop_events].
      destruct (escapes raised) eqn:Hesc.
      * destruct raised as [e|]; [|discriminate]. now rewrite app_nil_r.
      * rewrite IH. cbn [cwd sockets log]. unfold loop_completion.
        rewrite length_app, Nat.add_1_r, <- !app_assoc. reflexivity.
    + cbn [serve_loop]. unfold bind. cbn. apply IH.
    + destruct w; simpl. now rewrite !app_nil_r.
    + cbn [serve_loop]. unfold bind. rewrite handle_stalled. reflexivity.
Qed.

(** A loop that an exception ends has closed every connection. *)
Lemma loop_sockets_closed (script : list loop_event) (e : exn) :
  loop_raises script = Some e ->
  loop_sockets script = repeat Closed (connections script).
Proof.
  induction script as [|ev script IH]; intros H; [reflexivity|].
  destruct ev as [raised| |e'|]; cbn in *; try reflexivity; try discriminate.
  - destruct (escapes raised); [reflexivity | now rewrite IH].
  - now apply IH.
Qed.

(** [loop_raises] is the exception that leaves [serve_forever], and a loop
    that none leaves never returns. *)
Lemma serve_forever_completion (self : server) (env : Env) (w : World) :
  fst (serve_forever self env w) =
  match loop_raises (serve_script env) with
  | Some e => Raises e
  | None => Blocks
  end.
Proof.
  unfold serve_forever, bind, ask. now rewrite serve_loop_run.
Qed.

(** ** The runs of [serve_static] *)

Section Runs.

Variables (p : Z) (d : string) (env : Env) (w : World).

Let fd : nat := length (sockets w).
Let script : list loop_event := serve_script env.

Lemma run_chdir_raises (e : exn) :
  chdir_result env (cwd w) d = inl e ->
  serve_static (value p) (value d) env w = (Raises e, logged w [Chdir d]).
Proof.
  intros H. unfold serve_static, os_chdir, bind, emit, ask, get, raise, logged.
  cbn. now rewrite H.
Qed.

Lemma run_socket_raises (dir : string) (e : exn) :
  chdir_result env (cwd w) d = inr dir ->
  socket_result env = Some e ->
  serve_static (value p) (value d) env w =
  (Raises e, {| cwd := dir; sockets := sockets w; log := log w ++ [Chdir d] |}).
Proof.
  intros Hc Hs.
  unfold serve_static, os_chdir, with_, TCPServer, socket_socket, bind, emit,
    ask, get, raise, set_cwd.
  cbn. rewrite Hc. cbn. now rewrite Hs.
Qed.

Lemma run_bind_raises (dir : string) (e : exn) :
  chdir_result env (cwd w) d = inr dir ->
  socket_result env = None ->
  bind_result env "" p = Some e ->
  serve_static (value p) (value d) env w =
  (Raises e,
   {| cwd := dir;
      sockets := sockets w ++ [Closed];
      log := log w ++ [Chdir d; Socket fd; Bind fd "" p; Close fd] |}).
Proof.
  intros Hc Hs Hb.
  unfold serve_static, os_chdir, with_, TCPServer, try_except_reraise, try_catch,
    server_bind, server_activate, server_close, socket_socket, socket_bind,
    socket_close, new_socket, set_socket, bind, emit, ask, get, raise, set_cwd, ret.
  cbn. rewrite Hc. cbn. rewrite Hs. cbn. rewrite Hb. cbn.
  now rewrite update_last, <- !app_assoc.
Qed.

Lemma run_listen_raises (dir : string) (e : exn) :
  chdir_result env (cwd w) d = inr dir ->
  socket_result env = None ->
  bind_result env "" p = None ->
  listen_result env = Some e ->
  serve_static (value p) (value d) env w =
  (Raises e,
   {| cwd := dir;
      sockets := sockets w ++ [Closed];
      log := log w ++ [Chdir d; Socket fd; Bind fd "" p; Listen fd; Close fd] |}).
Proof.
  intros Hc Hs Hb Hl.
  unfold serve_static, os_chdir, with_, TCPServer, try_except_reraise, try_catch,
    server_bind, server_activate, server_close, socket_socket, socket_bind,
    socket_getsockname, socket_listen, socket_close, new_socket, set_socket,
    bind, emit, ask, get, raise, set_cwd, ret.
  cbn. rewrite Hc. cbn. rewrite Hs. cbn. rewrite Hb. cbn.
  rewrite update_last, nth_error_middle. cbn. rewrite Hl. cbn.
  now rewrite !update_last, <- !app_assoc.
Qed.

Lemma run_serving (dir : string) :
  chdir_result env (cwd w) d = inr dir ->
  socket_result env = None ->
  bind_result env "" p = None ->
  listen_result env = None ->
  serve_static (value p) (value d) env w =
  match loop_raises script with
  | None =>
      (Blocks,
       {| cwd := dir;
          sockets := sockets w ++ Listening "0.0.0.0" (bound_port env p) :: loop_sockets script;
          log := log w ++ startup_events d p fd
                       ++ loop_events (httpd (bound_port env p) fd) dir (S fd) script |})
  | Some e =>
      (if isinstance_KeyboardInterrupt e then Returns tt else Raises e,
       {| cwd := dir;
          sockets := sockets w ++ Closed :: repeat Closed (connections script);
          log := log w ++ startup_events d p fd
                       ++ loop_events (httpd (bound_port env p) fd) dir (S fd) script
                       ++ shutdown_events e fd |})
  end.
Proof.
  intros Hc Hs Hb Hl.
  unfold serve_static, os_chdir, with_, TCPServer, try_except_reraise, try_except,
    try_catch, serve_forever, print, __exit__,
    server_bind, server_activate, server_close, socket_socket, socket_bind,
    socket_getsockname, socket_listen, socket_close, new_socket, set_socket,
    bind, emit, ask, get, raise, set_cwd, ret.
  cbn. rewrite Hc. cbn. rewrite Hs. cbn. rewrite Hb. cbn.
  rewrite update_last, nth_error_middle. cbn. rewrite Hl. cbn.
  rewrite nth_error_middle. cbn.
  rewrite update_last, serve_loop_run. cbn [cwd sockets log].
  unfold loop_completion. fold script. fold fd.
  rewrite length_app, Nat.add_1_r. fold fd.
  unfold startup_events, shutdown_events, httpd.
  destruct (loop_raises script) as [e|] eqn:Hraises.
  - rewrite (loop_sockets_closed script e Hraises).
    destruct e; cbn; rewrite <- !app_assoc; cbn;
      unfold fd; rewrite update_middle; reflexivity.
  - rewrite <- !app_assoc. reflexivity.
Qed.

End Runs.

(** ** Facts about the events of a run *)

Lemma loop_events_of_loop (self : server) (dir : string) (script : list loop_event) :
  forall conn, socket self < conn ->
    Forall (of_loop self dir) (loop_events self dir conn script).
Proof.
  induction script as [|ev script IH]; intros conn Hlt; cbn [loop_events].
  - constructor.
  - destruct ev as [raised| |e|];
      [|now apply IH|constructor|repeat constructor; cbn; auto].
    apply Forall_app. split.
    + unfold connection_events.
      repeat first [apply Forall_app; split | apply Forall_cons | apply Forall_nil];
        cbn; auto.
      destruct raised as [e|]; [destruct (isinstance_Exception e)|];
        repeat constructor.
    + destruct (escapes raised); [constructor | apply IH; lia].
Qed.

Lemma stdout_app (l1 l2 : list event) : stdout (l1 ++ l2) = stdout l1 ++ stdout l2.
Proof. apply flat_map_app. Qed.

Lemma of_loop_stdout (self : server) (dir : string) (evs : list event) :
  Forall (of_loop self dir) evs -> stdout evs = [].
Proof.
  induction 1 as [|ev evs Hev _ IH]; [reflexivity|].
  destruct ev; cbn in *; try contradiction; exact IH.
Qed.

Lemma of_loop_reads_configuration (self : server) (dir : string) (p : Z) (d : string)
    (evs : list event) :
  Forall (of_loop self dir) evs -> Forall (reads_configuration p d) evs.
Proof.
  intros H. eapply Forall_impl; [|exact H].
  intros [] Hev; cbn in *; try contradiction; exact I.
Qed.

(** The one case analysis on which every property of [serve_static] rests:
    the five ways a run can go. *)
Ltac run_cases p d env w :=
  destruct (chdir_result env (cwd w) d) as [?e|?dir] eqn:Hchdir;
  [ rewrite (run_chdir_raises p d env w _ Hchdir)
  | destruct (socket_result env) as [?e|] eqn:Hsocket;
    [ rewrite (run_socket_raises p d env w _ _ Hchdir Hsocket)
    | destruct (bind_result env "" p) as [?e|] eqn:Hbind;
      [ rewrite (run_bind_raises p d env w _ _ Hchdir Hsocket Hbind)
      | destruct (listen_result env) as [?e|] eqn:Hlisten;
        [ rewrite (run_listen_raises p d env w _ _ Hchdir Hsocket Hbind Hlisten)
        | rewrite (run_serving p d env w _ Hchdir Hsocket Hbind Hlisten) ] ] ] ].

(** Splits a membership in a list built from conses and appends. *)
Ltac split_in H :=
  repeat match type of H with
         | In _ (_ ++ _) => apply in_app_or in H; destruct H as [H|H]
         | In _ (_ :: _) => destruct H as [H|H]
         | In _ [] => destruct H
         | In _ (shutdown_events _ _) => unfold shutdown_events in H
         | In _ (if ?b then _ else _) => destruct b
         end.

Lemma in_loop_events (self : server) (dir : string) (conn : nat)
    (script : list loop_event) (ev : event) :
  socket self < conn ->
  In ev (loop_events self dir conn script) -> of_loop self dir ev.
Proof.
  intros Hlt Hin.
  pose proof (loop_events_of_loop self dir script conn Hlt) as HF.
  rewrite Forall_forall in HF. now apply HF.
Qed.

Lemma before_stdout (a b c d' : event) (l pre post : list event) (text : string) :
  a :: b :: c :: d' :: l = pre ++ Stdout text :: post ->
  (forall t, a <> Stdout t) -> (forall t, b <> Stdout t) ->
  (forall t, c <> Stdout t) -> (forall t, d' <> Stdout t) ->
  exists pre', pre = a :: b :: c :: d' :: pre'.
Proof.
  intros H Ha Hb Hc Hd.
  destruct pre as [|x1 pre]; cbn in H; [injection H as H _; now apply Ha in H|].
  destruct pre as [|x2 pre]; cbn in H;
    [injection H as _ H _; now apply Hb in H|].
  destruct pre as [|x3 pre]; cbn in H;
    [injection H as _ _ H _; now apply Hc in H|].
  destruct pre as [|x4 pre]; cbn in H;
    [injection H as _ _ _ H _; now apply Hd in H|].
  injection H as -> -> -> -> _. now exists pre.
Qed.


(** A run that ends leaves no socket open. *)
Lemma run_releases_sockets (p : Z) (d : string) (env : Env) (w : World) :
  fst (serve_static (value p) (value d) env w) <> Blocks ->
  exists n, sockets (snd (serve_static (value p) (value d) env w)) = sockets w ++ repeat Closed n.
Proof.
  run_cases p d env w;
    [ | | | | destruct (loop_raises (serve_script env)) ];
    cbn [fst snd sockets]; intros Hends.
  - exists 0. now rewrite app_nil_r.
  - exists 0. now rewrite app_nil_r.
  - now exists 1.
  - now exists 1.
  - now exists (S (connections (serve_script env))).
  - contradiction.
Qed.

(** On a machine where nothing happens to the running server,
    [serve_static] does not end by [SystemExit]. *)
Lemma host_never_exits (p : stored Z) (d : stored string) (dirs : list string)
    (busy : list Z) (w : World) (code : Z) :
  fst (serve_static p d (Host.host dirs busy []) w) <> Raises (SystemExit code).
Proof.
  destruct d as [d|]; [|discriminate].
  destruct p as [p|].
  - run_cases p d (Host.host dirs busy []) w; cbn [fst]; try discriminate.
    + cbn in Hchdir. destruct (Host.resolve dirs (cwd w) d); [discriminate|].
      injection Hchdir as <-. discriminate.
    + cbn in Hbind.
      destruct ((p <? 0)%Z || (65535 <? p)%Z);
        [|destruct (existsb (Z.eqb p) busy)];
        try discriminate; injection Hbind as <-; discriminate.
  - unfold serve_static, os_chdir, with_, TCPServer, try_except_reraise, try_catch,
      server_bind, server_activate, server_close, socket_socket, socket_bind,
      socket_close, new_socket, set_socket, bind, emit, ask, get, raise, set_cwd, ret.
    cbn. destruct (Host.resolve dirs (cwd w) d); discriminate.
Qed.

Lemma first_call_is_chdir (p : Z) (d : string) (env : Env) (w : World) :
  exists rest, log (snd (serve_static (value p) (value d) env w)) = log w ++ Chdir d :: rest.
Proof.
  run_cases p d env w;
    [ | | | | destruct (loop_raises (serve_script env)) ];
    cbn [snd log]; eexists; unfold startup_events; cbn [app]; reflexivity.
Qed.


(** ** The parser *)

Lemma parse_args_run (int : string -> option Z) (argv : list string) (env : Env) (w : World) :
  parse_args int argv env w =
  match parse_known_args int argv with
  | Done namespace [] => (Returns namespace, w)
  | Done _ extras =>
      (Raises (SystemExit 2), logged w [PrintUsage (unrecognized_arguments extras)])
  | Help => (Raises (SystemExit 0), logged w [PrintHelp])
  | Error err => (Raises (SystemExit 2), logged w [PrintUsage err])
  end.
Proof.
  unfold parse_args.
  destruct (parse_known_args int argv) as [ns [|x extras]| |err]; reflexivity.
Qed.

Lemma main_run (int : string -> option Z) (argv : list string) (env : Env) (w : World) :
  main int argv env w =
  match parse_known_args int argv with
  | Done namespace [] => serve_static (port namespace) (directory namespace) env w
  | Done _ extras =>
      (Raises (SystemExit 2), logged w [PrintUsage (unrecognized_arguments extras)])
  | Help => (Raises (SystemExit 0), logged w [PrintHelp])
  | Error err => (Raises (SystemExit 2), logged w [PrintUsage err])
  end.
Proof.
  unfold main, bind. rewrite parse_args_run.
  destruct (parse_known_args int argv) as [ns [|x extras]| |err]; reflexivity.
Qed.

Lemma serve_static_environ (p : stored Z) (d : stored string) (env : Env) (w : World)
    (vars : string -> option string) :
  serve_static p d (with_environ env vars) w = serve_static p d env w.
Proof.
  destruct d as [d|]; [|reflexivity].
  destruct p as [p|].
  - run_cases p d env w.
    + now rewrite (run_chdir_raises p d (with_environ env vars) w _ Hchdir).
    + now rewrite (run_socket_raises p d (with_environ env vars) w _ _ Hchdir Hsocket).
    + now rewrite (run_bind_raises p d (with_environ env vars) w _ _
                     Hchdir Hsocket Hbind).
    + now rewrite (run_listen_raises p d (with_environ env vars) w _ _
                     Hchdir Hsocket Hbind Hlisten).
    + now rewrite (run_serving p d (with_environ env vars) w _
                     Hchdir Hsocket Hbind Hlisten).
  - unfold serve_static, os_chdir, with_, TCPServer, socket_socket, bind, emit,
      ask, get, raise, set_cwd.
    cbn. destruct (chdir_result env (cwd w) d); [reflexivity|].
    cbn. destruct (socket_result env); reflexivity.
Qed.

Lemma classify_cons (arg_string : string) (rest : list string)
    (t : option option_tuple) (ps : list (string * pattern)) :
  String.eqb arg_string "--" = false ->
  parse_optional arg_string = inr t ->
  classify rest = inr ps ->
  classify (arg_string :: rest) = inr ((arg_string, pattern_of t) :: ps).
Proof.
  intros Hdash Hopt Hrest. cbn [classify]. rewrite Hdash, Hopt, Hrest.
  now destruct t.
Qed.

Lemma is_argument_spec (s : string) :
  is_argument s = true ->
  String.eqb s "--" = false /\ parse_optional s = inr None.
Proof.
  unfold is_argument. intros H. apply andb_prop in H as [Hd Hp].
  split; [now apply negb_true_iff in Hd|].
  destruct (parse_optional s) as [|[]]; congruence.
Qed.

Lemma classify_settings (settings : list setting) :
  forallb (fun s => is_argument (text_of s)) settings = true ->
  classify (flat_map render settings) = inr (flat_map classified settings).
Proof.
  induction settings as [|s settings IH]; intros H; [reflexivity|].
  cbn [forallb] in H. apply andb_prop in H as [Hs H].
  apply is_argument_spec in Hs as [Hdash Hopt].
  specialize (IH H).
  destruct s as [text|text]; cbn [flat_map render classified app text_of] in *.
  - apply (classify_cons "--port" _
             (Some (Some (StoreAction dest_port), "--port"%string, None)));
      [reflexivity | reflexivity |].
    now apply (classify_cons text _ None).
  - apply (classify_cons "--directory" _
             (Some (Some (StoreAction dest_directory), "--directory"%string, None)));
      [reflexivity | reflexivity |].
    now apply (classify_cons text _ None).
Qed.

Lemma consume_settings (int : string -> option Z) (settings : list setting) :
  forallb (fun s => is_argument (text_of s)) settings = true ->
  forall namespace extras,
    consume int (flat_map classified settings) namespace extras =
    match configure int namespace settings with
    | inr namespace' => Done namespace' extras
    | inl text => Error (invalid_int_value text)
    end.
Proof.
  induction settings as [|s settings IH]; intros H ns extras; [reflexivity|].
  cbn [forallb] in H. apply andb_prop in H as [Hs H].
  apply is_argument_spec in Hs as [Hdash _]. specialize (IH H).
  destruct s as [text|text]; cbn [text_of] in Hdash;
    cbn [flat_map classified app consume configure
           consume_optional match_following next_argument take_actions take_action].
  - rewrite Hdash. destruct (int text) as [n|]; [apply IH | reflexivity].
  - rewrite Hdash. apply IH.
Qed.

(** The two options of [start.py]: any number of uses in any order, the last
    of each wins, the defaults stand for the ones not used, and a port that
    [int] refuses is an error. *)
Lemma parse_settings (int : string -> option Z) (settings : list setting) :
  forallb (fun s => is_argument (text_of s)) settings = true ->
  parse_known_args int (flat_map render settings) =
  match configure int defaults settings with
  | inr namespace => Done namespace []
  | inl text => Error (invalid_int_value text)
  end.
Proof.
  intros H. unfold parse_known_args.
  rewrite (classify_settings settings H). now apply consume_settings.
Qed.

(** ** Command lines that are turned down *)

Lemma classify_app (pre suf : list string) :
  forall ps, classify (pre ++ suf) = inr ps ->
    (exists ps1 ps2,
        ps = ps1 ++ ps2 /\ map fst ps1 = pre /\
        Forall well_classified ps1 /\ classify suf = inr ps2) \/
    (exists ps1 l,
        ps = ps1 ++ ("--"%string, Dash) :: map (fun s => (s, Arg)) l /\
        incl (map fst ps1) pre /\ Forall well_classified ps1).
Proof.
  induction pre as [|x pre IH]; intros ps H.
  - left. exists [], ps. repeat split; auto.
  - cbn [app classify] in H.
    destruct (String.eqb x "--") eqn:Hx.
    + apply String.eqb_eq in Hx. subst x. injection H as <-.
      right. exists [], (pre ++ suf). repeat split; auto.
      intros a [].
    + destruct (parse_optional x) as [err|t] eqn:Hopt; [discriminate|].
      destruct (classify (pre ++ suf)) as [err|ps'] eqn:Hrest; [discriminate|].
      injection H as <-.
      assert (Hwc : well_classified (x, pattern_of t)).
      { split; cbn; [now apply String.eqb_neq | now exists t]. }
      destruct (IH ps' eq_refl) as [(ps1 & ps2 & -> & Hfst & Hall & Hsuf)
                                   |(ps1 & l & -> & Hincl & Hall)].
      * left. exists ((x, pattern_of t) :: ps1), ps2.
        repeat split; cbn; auto. now rewrite Hfst.
      * right. exists ((x, pattern_of t) :: ps1), l.
        repeat split; cbn; auto.
        intros a [<-|Ha]; [now left | right; now apply Hincl].
Qed.

Lemma consume_arguments (int : string -> option Z) (l : list string) :
  forall namespace extras,
    consume int (map (fun s => (s, Arg)) l) namespace extras =
    Done namespace (extras ++ l).
Proof.
  induction l as [|s l IH]; intros ns extras; cbn [map consume].
  - now rewrite app_nil_r.
  - rewrite IH, <- app_assoc. reflexivity.
Qed.

Lemma match_following_taken (a : action) (option_string : string)
    (next : option string) (calls : list call) :
  match_following a option_string next = inr (calls, true) -> next <> None.
Proof.
  unfold match_following. destruct a; [discriminate|].
  destruct next; discriminate.
Qed.

Lemma match_explicit_taken (next : option string) (explicit_arg : string) :
  forall a option_string calls,
    match_explicit a option_string explicit_arg next = inr (calls, true) ->
    next <> None.
Proof.
  induction explicit_arg as [|c e IH]; intros a os calls H; cbn [match_explicit] in H.
  - destruct a; discriminate.
  - destruct a; [|discriminate].
    destruct (single_dash os); [|discriminate].
    destruct (lookup (String "-" (String c EmptyString))) as [a'|]; [|discriminate].
    destruct e as [|c' e'].
    + destruct (match_following a' _ next) as [err|[calls' taken]] eqn:Hf;
        [discriminate|].
      injection H as _ ->. eapply match_following_taken, Hf.
    + destruct (match_explicit a' _ (String c' e') next) as [err|[calls' taken]] eqn:Hm;
        [discriminate|].
      injection H as _ ->. eapply IH, Hm.
Qed.

Lemma consume_optional_taken (a : action) (option_string : string)
    (explicit_arg next : option string) (calls : list call) :
  consume_optional a option_string explicit_arg next = inr (calls, true) ->
  next <> None.
Proof.
  destruct explicit_arg as [e|]; cbn [consume_optional].
  - apply match_explicit_taken.
  - apply match_following_taken.
Qed.

Lemma store_never_helps (int : string -> option Z) (d : dest) (option_string : string)
    (explicit_arg next : option string) (calls : list call)
    (taken : bool) (namespace : Namespace) :
  consume_optional (StoreAction d) option_string explicit_arg next = inr (calls, taken) ->
  take_actions int namespace calls <> Help.
Proof.
  intros H.
  assert (Hone : exists v, calls = [call_store d v]).
  { destruct explicit_arg as [e|]; cbn in H.
    - destruct e; injection H as <- _; eauto.
    - destruct next; [injection H as <- _; eauto | discriminate]. }
  destruct Hone as [v ->]. cbn.
  destruct d; cbn; destruct (String.eqb v "--"); try discriminate.
  destruct (int v); discriminate.
Qed.

Lemma rejected_weaken (x : string) (seen : list string) (o : outcome) :
  rejected seen o -> rejected (x :: seen) o.
Proof.
  destruct o; cbn; auto.
  intros (h & Hin & Hh). exists h. split; [now right | exact Hh].
Qed.

(** Whatever stands before the part of a command line that spoils it, the
    command line is turned down. *)
Lemma consume_poisoned (int : string -> option Z) (tail : list (string * pattern)) :
  poisoned int tail ->
  forall n ps1, length ps1 <= n -> Forall well_classified ps1 ->
    forall namespace extras,
      rejected (map fst ps1) (consume int (ps1 ++ tail) namespace extras).
Proof.
  intros [Hnext Htail].
  induction n as [|n IH]; intros ps1 Hlen Hall ns extras.
  - destruct ps1; [|cbn in Hlen; lia]. cbn [app map].
    specialize (Htail ns extras).
    destruct (consume int tail ns extras); cbn; auto; contradiction.
  - destruct ps1 as [|[x pat] ps1].
    { cbn [app map]. specialize (Htail ns extras).
      destruct (consume int tail ns extras); cbn; auto; contradiction. }
    cbn in Hlen. apply Forall_cons_iff in Hall as [Hx Hall].
    destruct Hx as [Hdash (t & Hopt & Hpat)]. cbn [fst snd] in *.
    cbn [map fst].
    destruct pat as [|[[[a|] os] e]|]; cbn [app consume].
    + apply rejected_weaken, IH; [lia | exact Hall].
    + destruct (consume_optional a os e (next_argument (ps1 ++ tail)))
        as [err|[calls taken]] eqn:Hco; [exact I|].
      destruct (take_actions int ns calls) as [ns' ex| |err] eqn:Hta.
      * apply rejected_weaken. destruct taken.
        -- apply consume_optional_taken in Hco.
           destruct ps1 as [|[v pv] ps1]; [cbn in Hco; congruence|].
           cbn [app map]. apply rejected_weaken.
           apply Forall_cons_iff in Hall as [_ Hall].
           apply IH; [cbn in Hlen; lia | exact Hall].
        -- apply IH; [lia | exact Hall].
      * exists x. split; [now left|].
        destruct t as [t|]; [|discriminate]. injection Hpat as <-.
        destruct a as [|d]; [now exists os, e|].
        now apply (store_never_helps int d os e _ calls taken ns) in Hco.
      * exact I.
    + apply rejected_weaken, IH; [lia | exact Hall].
    + destruct t; discriminate.
Qed.

Lemma rejected_incl (seen seen' : list string) (o : outcome) :
  incl seen seen' -> rejected seen o -> rejected seen' o.
Proof.
  intros Hincl. destruct o; cbn; auto.
  intros (h & Hin & Hh). exists h. split; [now apply Hincl | exact Hh].
Qed.

Lemma poisoned_dash (int : string -> option Z) (l : list string) :
  poisoned int (("--"%string, Dash) :: map (fun s => (s, Arg)) l).
Proof.
  split; [reflexivity|]. intros ns extras. cbn [consume].
  rewrite consume_arguments. now destruct extras.
Qed.

Lemma option_is_not_dash (arg_string : string) (t : option option_tuple) :
  parse_optional arg_string = inr t -> String.eqb arg_string "--" = false.
Proof.
  intros H. destruct (String.eqb arg_string "--") eqn:Hd; [|reflexivity].
  apply String.eqb_eq in Hd. subst arg_string. discriminate H.
Qed.

Lemma poisoned_port (int : string -> option Z) (opt v : string) (post : list string)
    (ps : list (string * pattern)) :
  int v = None ->
  port_option opt None ->
  classify (opt :: v :: post) = inr ps ->
  poisoned int ps.
Proof.
  intros Hint [os Hopt] H. cbn [classify] in H.
  rewrite (option_is_not_dash opt _ Hopt), Hopt in H.
  destruct (String.eqb v "--") eqn:Hv.
  - injection H as <-. split; [reflexivity|]. intros ns extras. exact I.
  - destruct (parse_optional v) as [err|t]; [discriminate|].
    destruct (classify post) as [err|ps']; [discriminate|].
    injection H as <-. split; [reflexivity|]. intros ns extras.
    cbn [consume consume_optional match_following next_argument].
    destruct t as [t|]; [exact I|]. cbn. now rewrite Hv, Hint.
Qed.

Lemma poisoned_port_explicit (int : string -> option Z) (opt v : string)
    (post : list string) (ps : list (string * pattern)) :
  int v = None ->
  v <> "--"%string ->
  port_option opt (Some v) ->
  classify (opt :: post) = inr ps ->
  poisoned int ps.
Proof.
  intros Hint Hv [os Hopt] H. apply String.eqb_neq in Hv. cbn [classify] in H.
  rewrite (option_is_not_dash opt _ Hopt), Hopt in H.
  destruct (classify post) as [err|ps']; [discriminate|].
  injection H as <-. split; [reflexivity|]. intros ns extras.
  cbn [consume consume_optional].
  destruct v; cbn [match_explicit take_actions take_action]; now rewrite Hv, Hint.
Qed.

(** The spellings of the port option. *)
Lemma port_option_spellings (v : string) :
  port_option "--port" None /\ port_option "--por" None /\
  port_option "--po" None /\ port_option "--p" None /\
  port_option ("--port=" ++ v) (Some v) /\ port_option ("--por=" ++ v) (Some v) /\
  port_option ("--po=" ++ v) (Some v) /\ port_option ("--p=" ++ v) (Some v).
Proof.
  repeat split; eexists; reflexivity.
Qed.

(** A command line with a part that spoils it is turned down. *)
Lemma parse_poisoned (int : string -> option Z) (pre suf : list string) :
  (forall ps, classify suf = inr ps -> poisoned int ps) ->
  rejected pre (parse_known_args int (pre ++ suf)).
Proof.
  intros Hsuf. unfold parse_known_args.
  destruct (classify (pre ++ suf)) as [err|ps] eqn:Hps; [exact I|].
  apply classify_app in Hps
      as [(ps1 & ps2 & -> & Hfst & Hall & Hcl)|(ps1 & l & -> & Hincl & Hall)].
  - rewrite <- Hfst.
    apply (consume_poisoned int ps2 (Hsuf ps2 Hcl) (length ps1)); auto.
  - apply (rejected_incl (map fst ps1)); [exact Hincl|].
    apply (consume_poisoned int _ (poisoned_dash int l) (length ps1)); auto.
Qed.

(** ** The claims *)

(** C1, as worded, fails on port 0: [bind] is asked for port 0, the
    kernel picks a free port, and that is the port on which the server
    listens. *)
Lemma port_zero_is_chosen_by_the_kernel : ~ listens_on_given_port 0.
Proof.
  intros H.
  specialize (H "."%string (Host.host ["/srv"%string] [] []) (Host.fresh "/srv")
                eq_refl).
  discriminate H.
Qed.

(** C1, amended. [serve_static port directory] changes the working
    directory to [directory] before anything else, and not again. Every
    [bind] of the run comes after it, is on the socket of the server, asks
    for host [""], which is 0.0.0.0, and for [port], and finds the process in
    the directory that [chdir] led to; the [bind] is made whenever [chdir]
    and the creation of the socket succeed. Every request is handled by
    [SimpleHTTPRequestHandler] from the working directory, and a server that
    keeps running listens on 0.0.0.0, on [port] when [port] is not 0 and on
    the port that the kernel has picked when it is. *)
Theorem serve_static_chdir_then_bind (p : Z) (d : string) (env : Env) (w : World) :
  let r := serve_static (value p) (value d) env w in
  let fd := length (sockets w) in
  exists rest : list event,
    log (snd r) = log w ++ Chdir d :: rest /\
    (forall path, ~ In (Chdir path) rest) /\
    (forall fd' host port, In (Bind fd' host port) rest ->
       fd' = fd /\ host = "" /\ interface host = "0.0.0.0" /\ port = p /\
       chdir_result env (cwd w) d = inr (cwd (snd r))) /\
    (forall dir, chdir_result env (cwd w) d = inr dir ->
       socket_result env = None -> In (Bind fd "" p) rest) /\
    (forall conn h dir, In (Handle conn h dir) rest ->
       h = SimpleHTTPRequestHandler /\ dir = Some (cwd (snd r))) /\
    (fst r = Blocks ->
     nth_error (sockets (snd r)) fd =
     Some (Listening "0.0.0.0" (if (p =? 0)%Z then ephemeral_port env else p))).
Proof.
  cbv zeta. fold (bound_port env p).
  assert (Hloop : forall dir ev,
             In ev (loop_events (httpd (bound_port env p) (length (sockets w))) dir
                      (S (length (sockets w))) (serve_script env)) ->
             of_loop (httpd (bound_port env p) (length (sockets w))) dir ev).
  { intros dir ev. apply in_loop_events. cbn. lia. }
  run_cases p d env w;
    [ | | | | destruct (loop_raises (serve_script env)) as [e|] eqn:Hraises ];
    cbn [fst snd log cwd sockets];
    (eexists; split; [unfold startup_events; cbn [app]; reflexivity|]);
    repeat match goal with |- _ /\ _ => split end.
  all: unfold not; intros.
  all: try match goal with
           | H : In _ _ |- _ =>
               split_in H; try discriminate;
               try (apply Hloop in H; cbn in H; try contradiction)
           end.
  all: try match goal with
           | H : Bind _ _ _ = Bind _ _ _ |- _ =>
               inversion H; subst; cbn; intuition congruence
           | H : _ /\ _ = _ /\ _ = _ |- _ =>
               destruct H as (_ & -> & ->); cbn; auto
           | H : (if _ then _ else _) = Blocks |- _ => destruct e; discriminate
           | |- nth_error _ _ = _ => apply nth_error_middle
           end.
  all: try discriminate.
  all: try (cbn; intuition congruence).
Qed.

(** C2. When [KeyboardInterrupt] ends the serve loop of a server that has
    started, [serve_static] returns, the process exits with status 0, and
    standard output has received the startup line and then the shutdown
    message, each with its line feed. *)
Theorem keyboard_interrupt_shuts_down_cleanly (p : Z) (d : string) (env : Env)
    (w : World) (dir : string) :
  chdir_result env (cwd w) d = inr dir ->
  socket_result env = None ->
  bind_result env "" p = None ->
  listen_result env = None ->
  loop_raises (serve_script env) = Some KeyboardInterrupt ->
  let r := serve_static (value p) (value d) env w in
  fst r = Returns tt /\
  exit_status (fst r) = Some 0%Z /\
  stdout (log (snd r)) =
    stdout (log w)
    ++ [(startup_message (value d) (value p) ++ LF)%string;
        (LF ++ "Shutting down the server." ++ LF)%string].
Proof.
  intros Hchdir Hsocket Hbind Hlisten Hraises r. subst r.
  rewrite (run_serving p d env w dir Hchdir Hsocket Hbind Hlisten), Hraises.
  cbn [fst snd log isinstance_KeyboardInterrupt exit_status].
  repeat split.
  assert (Hquiet : stdout (loop_events (httpd (bound_port env p) (length (sockets w))) dir
                             (S (length (sockets w))) (serve_script env)) = []).
  { apply (of_loop_stdout (httpd (bound_port env p) (length (sockets w))) dir).
    apply loop_events_of_loop. cbn. lia. }
  rewrite !stdout_app, Hquiet. reflexivity.
Qed.

Lemma keyboard_interrupt_shuts_down_cleanly_witness :
  let r := serve_static (value 8000%Z) (value "."%string)
             (Host.host ["/srv"] [] [Connection None; Interrupt KeyboardInterrupt])
             (Host.fresh "/srv") in
  fst r = Returns tt /\
  exit_status (fst r) = Some 0%Z /\
  stdout (log (snd r)) =
    stdout []
    ++ [(startup_message (value "."%string) (value 8000%Z) ++ LF)%string;
        (LF ++ "Shutting down the server." ++ LF)%string].
Proof.
  apply (keyboard_interrupt_shuts_down_cleanly 8000 "."
           (Host.host ["/srv"] [] [Connection None; Interrupt KeyboardInterrupt])
           (Host.fresh "/srv") "/srv"); reflexivity.
Defined.

(** C3. When [os.chdir] raises an [OSError] on [directory], [serve_static]
    raises it: the call of [chdir] is the only call of the run, no socket is
    created, and the working directory is the one of before. *)
Theorem chdir_failure_precedes_any_socket (p : Z) (d : string) (env : Env)
    (w : World) (errno : Z) :
  chdir_result env (cwd w) d = inl (OSError errno) ->
  let r := serve_static (value p) (value d) env w in
  fst r = Raises (OSError errno) /\
  log (snd r) = log w ++ [Chdir d] /\
  sockets (snd r) = sockets w /\
  cwd (snd r) = cwd w.
Proof.
  intros Hchdir r. subst r.
  rewrite (run_chdir_raises p d env w _ Hchdir). now cbn.
Qed.

Lemma chdir_failure_precedes_any_socket_witness :
  let r := serve_static (value 8000%Z) (value "missing"%string) (Host.host ["/srv"] [] []) (Host.fresh "/srv") in
  fst r = Raises (OSError Host.ENOENT) /\
  log (snd r) = [] ++ [Chdir "missing"] /\
  sockets (snd r) = [] /\
  cwd (snd r) = "/srv".
Proof.
  apply (chdir_failure_precedes_any_socket 8000 "missing"
           (Host.host ["/srv"] [] []) (Host.fresh "/srv") Host.ENOENT).
  reflexivity.
Defined.

(** C4. When [bind] raises an [OSError] on [port], [serve_static] raises it
    and the process exits with status 1. The socket of the server is created,
    never listens, and is closed by the constructor; nothing is printed. *)
Theorem bind_failure_propagates (p : Z) (d : string) (env : Env) (w : World)
    (dir : string) (errno : Z) :
  chdir_result env (cwd w) d = inr dir ->
  socket_result env = None ->
  bind_result env "" p = Some (OSError errno) ->
  let r := serve_static (value p) (value d) env w in
  let fd := length (sockets w) in
  fst r = Raises (OSError errno) /\
  exit_status (fst r) = Some 1%Z /\
  log (snd r) = log w ++ [Chdir d; Socket fd; Bind fd "" p; Close fd] /\
  sockets (snd r) = sockets w ++ [Closed].
Proof.
  intros Hchdir Hsocket Hbind r fd. subst r fd.
  rewrite (run_bind_raises p d env w _ _ Hchdir Hsocket Hbind). now cbn.
Qed.

Lemma bind_failure_propagates_witness :
  let r := serve_static (value 8000%Z) (value "."%string) (Host.host ["/srv"] [8000%Z] []) (Host.fresh "/srv") in
  fst r = Raises (OSError Host.EADDRINUSE) /\
  exit_status (fst r) = Some 1%Z /\
  log (snd r) = [] ++ [Chdir "."; Socket 0; Bind 0 "" 8000; Close 0] /\
  sockets (snd r) = [] ++ [Closed].
Proof.
  apply (bind_failure_propagates 8000 "." (Host.host ["/srv"] [8000%Z] [])
           (Host.fresh "/srv") "/srv" Host.EADDRINUSE); reflexivity.
Defined.

(** C5, as worded, fails on the command line [--help]: the process prints
    the help text and exits with status 0, and [serve_static] is not called. *)
Lemma help_exits_without_serving : ~ always_serves Host.int ["--help"%string].
Proof.
  intros H.
  destruct (H (Host.host [] [] []) (Host.fresh "/srv")) as (p & d & Heq).
  apply (f_equal fst) in Heq. symmetry in Heq.
  now apply host_never_exits in Heq.
Qed.

(** C5, amended. The parser knows [-h], [--help], [--port] and
    [--directory]. What [main] does is decided by the parsing of the command
    line: when it gives a namespace and leaves no string over, [main] is the
    call of [serve_static] on the port and the directory of the namespace;
    when it ends with the help text, the text is printed and the process
    exits with status 0; in any other case a usage error is printed and the
    process exits with status 2. [serve_static] is not called in the last two
    cases. The environment variables change nothing. Without arguments the
    namespace has port 8000 and directory ["."]; [--help] and [-h] end with
    the help text; and a command line made of uses of [--port] and
    [--directory] gives the namespace with the last value of each. *)
Theorem main_serves_the_parsed_pair (int : string -> option Z)
    (argv : list string) (env : Env) (w : World) :
  main int argv env w =
    match parse_known_args int argv with
    | Done namespace [] => serve_static (port namespace) (directory namespace) env w
    | Done _ extras =>
        (Raises (SystemExit 2), logged w [PrintUsage (unrecognized_arguments extras)])
    | Help => (Raises (SystemExit 0), logged w [PrintHelp])
    | Error err => (Raises (SystemExit 2), logged w [PrintUsage err])
    end /\
  (forall vars, main int argv (with_environ env vars) w = main int argv env w) /\
  map fst option_string_actions = ["-h"; "--help"; "--port"; "--directory"]%string /\
  parse_known_args int [] =
    Done {| port := value 8000%Z; directory := value "."%string |} [] /\
  parse_known_args int ["--help"%string] = Help /\
  parse_known_args int ["-h"%string] = Help /\
  (forall settings,
      forallb (fun s => is_argument (text_of s)) settings = true ->
      parse_known_args int (flat_map render settings) =
      match configure int defaults settings with
      | inr namespace => Done namespace []
      | inl text => Error (invalid_int_value text)
      end).
Proof.
  split; [apply main_run|].
  split.
  { intros vars. rewrite !main_run.
    destruct (parse_known_args int argv) as [ns [|x extras]| |err]; try reflexivity.
    apply serve_static_environ. }
  repeat split. apply parse_settings.
Qed.

(** C6. An exception raised by [os.chdir], by the construction of the
    server or by [serve_forever] leaves [serve_static] as it is, with one
    exception: [KeyboardInterrupt] raised by [serve_forever], after which
    [serve_static] returns. *)
Theorem only_keyboard_interrupt_in_serve_loop_is_caught (p : Z) (d : string)
    (env : Env) (w : World) (st : stage) (e : exn) :
  raised p d env w st e ->
  fst (serve_static (value p) (value d) env w) =
    match st, e with
    | ServeLoop, KeyboardInterrupt => Returns tt
    | _, _ => Raises e
    end /\
  (fst (serve_static (value p) (value d) env w) = Returns tt -> st = ServeLoop /\ e = KeyboardInterrupt).
Proof.
  intros H.
  assert (Hrun : fst (serve_static (value p) (value d) env w) =
                 match st, e with
                 | ServeLoop, KeyboardInterrupt => Returns tt
                 | _, _ => Raises e
                 end).
  { destruct H as [e w1 Hchdir | e w1 w2 Hchdir Hctor
                  | e w1 srv w2 w3 w4 Hchdir Hctor Hprint Hserve];
      unfold serve_static, bind; rewrite Hchdir.
    - reflexivity.
    - unfold with_. rewrite Hctor. reflexivity.
    - unfold with_. rewrite Hctor, Hprint.
      unfold try_except, try_catch. rewrite Hserve.
      destruct e; reflexivity. }
  split; [exact Hrun|].
  rewrite Hrun. destruct st, e; (discriminate || auto).
Qed.

Lemma only_keyboard_interrupt_in_serve_loop_is_caught_witness :
  let env := Host.host ["/srv"] [] [Connection (Some (SystemExit 3))] in
  fst (serve_static (value 8000%Z) (value "."%string) env (Host.fresh "/srv")) = Raises (SystemExit 3) /\
  (fst (serve_static (value 8000%Z) (value "."%string) env (Host.fresh "/srv")) = Returns tt ->
   ServeLoop = ServeLoop /\ SystemExit 3 = KeyboardInterrupt).
Proof.
  apply (only_keyboard_interrupt_in_serve_loop_is_caught 8000 "."
           (Host.host ["/srv"] [] [Connection (Some (SystemExit 3))])
           (Host.fresh "/srv") ServeLoop (SystemExit 3)).
  pose (env := Host.host ["/srv"] [] [Connection (Some (SystemExit 3))]).
  pose (w1 := snd (os_chdir (value "."%string) env (Host.fresh "/srv"))).
  pose (w2 := snd (TCPServer ("", value 8000%Z) SimpleHTTPRequestHandler env w1)).
  pose (w3 := snd (print (startup_message (value "."%string) (value 8000%Z)) env w2)).
  pose (w4 := snd (serve_forever (httpd 8000 0) env w3)).
  apply (raised_by_serve_forever 8000 "." env (Host.fresh "/srv") (SystemExit 3)
           w1 (httpd 8000 0) w2 w3 w4);
    vm_compute; reflexivity.
Defined.

(** C7. When [KeyboardInterrupt] ends the serve loop of a server that has
    started, [serve_static] returns; its last two calls print the shutdown
    message and then close the listening socket; and every socket that the
    run has created, the listening socket and each connection, is closed. *)
Theorem interrupt_closes_every_socket (p : Z) (d : string) (env : Env)
    (w : World) (dir : string) :
  chdir_result env (cwd w) d = inr dir ->
  socket_result env = None ->
  bind_result env "" p = None ->
  listen_result env = None ->
  loop_raises (serve_script env) = Some KeyboardInterrupt ->
  let r := serve_static (value p) (value d) env w in
  let fd := length (sockets w) in
  fst r = Returns tt /\
  (exists evs, log (snd r) =
               log w ++ evs ++ [Stdout (shutdown_message ++ LF); Close fd]) /\
  sockets (snd r) = sockets w ++ repeat Closed (S (connections (serve_script env))).
Proof.
  intros Hchdir Hsocket Hbind Hlisten Hraises r fd. subst r fd.
  rewrite (run_serving p d env w dir Hchdir Hsocket Hbind Hlisten), Hraises.
  cbn [fst snd log sockets isinstance_KeyboardInterrupt shutdown_events].
  repeat split.
  eexists. rewrite (app_assoc (startup_events _ _ _)). reflexivity.
Qed.

Lemma interrupt_closes_every_socket_witness :
  let env := Host.host ["/srv"] []
               [Connection None; Connection (Some KeyboardInterrupt)] in
  let r := serve_static (value 8000%Z) (value "."%string) env (Host.fresh "/srv") in
  fst r = Returns tt /\
  (exists evs, log (snd r) =
               [] ++ evs ++ [Stdout (shutdown_message ++ LF); Close 0]) /\
  sockets (snd r) = [] ++ repeat Closed 3.
Proof.
  apply (interrupt_closes_every_socket 8000 "."
           (Host.host ["/srv"] [] [Connection None; Connection (Some KeyboardInterrupt)])
           (Host.fresh "/srv") "/srv"); reflexivity.
Defined.

(** C8. Whatever happens, every call of [serve_static port directory] that
    reads the configuration reads the values it was called with: each
    [chdir] goes to [directory], each [bind] asks for host [""] and [port],
    and what is printed is the startup line for [directory] and [port] or
    the shutdown message. *)
Theorem configuration_is_never_mutated (p : Z) (d : string) (env : Env) (w : World) :
  exists evs : list event,
    log (snd (serve_static (value p) (value d) env w)) = log w ++ evs /\
    Forall (reads_configuration p d) evs.
Proof.
  assert (Hloop : forall dir,
             Forall (reads_configuration p d)
               (loop_events (httpd (bound_port env p) (length (sockets w))) dir
                  (S (length (sockets w))) (serve_script env))).
  { intros dir. eapply of_loop_reads_configuration, loop_events_of_loop. cbn. lia. }
  run_cases p d env w;
    [ | | | | destruct (loop_raises (serve_script env)) as [e|] ];
    cbn [fst snd log]; (eexists; split; [reflexivity|]);
    unfold startup_events, shutdown_events;
    repeat first [ apply Forall_app; split
                 | apply Forall_cons
                 | apply Forall_nil
                 | apply Hloop ];
    cbn; auto.
  destruct (isinstance_KeyboardInterrupt e);
    [apply Forall_cons; [right; reflexivity | constructor] | constructor].
Qed.

(** C9, as worded, fails on the command line [--help --port abc]: the help
    option comes first, the process exits with status 0 and not with a usage
    error. *)
Lemma help_before_unparseable_port :
  Host.int "abc" = None /\
  ~ ends_in_usage_error Host.int ["--help"; "--port"; "abc"]%string.
Proof.
  split; [reflexivity|].
  intros H. specialize (H (Host.host [] [] []) (Host.fresh "/srv")).
  discriminate H.
Qed.

(** C9, amended. On a command line where the port option, [--port] or an
    abbreviation of it, is followed by a value that [int] refuses, or carries
    such a value, other than the string of two dashes, after an equals sign,
    [argparse] ends the process before [serve_static] is called: with a usage
    error and status 2, or with the help text and status 0 when the help
    option stands before. The world is the one of before but for that
    message: no change of directory, no socket. *)
Theorem unparseable_port_never_serves (int : string -> option Z)
    (pre post : list string) (opt v : string) (argv : list string)
    (env : Env) (w : World) :
  int v = None ->
  port_option opt None /\ argv = pre ++ opt :: v :: post \/
  port_option opt (Some v) /\ v <> "--"%string /\ argv = pre ++ opt :: post ->
  let r := main int argv env w in
  (exists err, r = (Raises (SystemExit 2), logged w [PrintUsage err])) \/
  (r = (Raises (SystemExit 0), logged w [PrintHelp]) /\
   exists h, In h pre /\ help_option h).
Proof.
  intros Hint Hargv r. subst r. rewrite main_run.
  assert (Hrej : rejected pre (parse_known_args int argv)).
  { destruct Hargv as [[Hopt ->] | (Hopt & Hv & ->)];
      apply parse_poisoned; intros ps Hps.
    - now apply (poisoned_port int opt v post).
    - now apply (poisoned_port_explicit int opt v post). }
  destruct (parse_known_args int argv) as [ns [|x extras]| |err]; cbn in Hrej.
  - now contradiction Hrej.
  - left. now eexists.
  - right. now split.
  - left. now eexists.
Qed.

Lemma unparseable_port_never_serves_witness :
  let r := main Host.int ["--directory"; "/srv"; "--port"; "http"]%string
             (Host.host ["/srv"%string] [] []) (Host.fresh "/home") in
  (exists err, r = (Raises (SystemExit 2), logged (Host.fresh "/home") [PrintUsage err])) \/
  (r = (Raises (SystemExit 0), logged (Host.fresh "/home") [PrintHelp]) /\
   exists h, In h ["--directory"; "/srv"]%string /\ help_option h).
Proof.
  apply (unparseable_port_never_serves Host.int ["--directory"; "/srv"]%string []
           "--port" "http" ["--directory"; "/srv"; "--port"; "http"]%string
           (Host.host ["/srv"%string] [] []) (Host.fresh "/home")).
  - reflexivity.
  - left. split; [eexists; reflexivity | reflexivity].
Defined.

(** C10. In every run of [serve_static], whatever is printed comes after
    the [bind] and the [listen] of the server, both of which have succeeded;
    and when [chdir] fails or [bind] is bound to fail, nothing is printed. *)
Theorem startup_message_follows_bind (p : Z) (d : string) (env : Env) (w : World) :
  let fd := length (sockets w) in
  exists evs : list event,
    log (snd (serve_static (value p) (value d) env w)) = log w ++ evs /\
    (forall pre text post, evs = pre ++ Stdout text :: post ->
       In (Bind fd "" p) pre /\ In (Listen fd) pre /\
       bind_result env "" p = None /\ listen_result env = None) /\
    ((exists e, chdir_result env (cwd w) d = inl e) \/ bind_result env "" p <> None ->
     stdout evs = []).
Proof.
  cbv zeta.
  run_cases p d env w;
    [ | | | | destruct (loop_raises (serve_script env)) as [e|] ];
    cbn [fst snd log]; (eexists; split; [reflexivity|]); split.
  all: try (intros pre text post H;
            assert (Hin : In (Stdout text) (pre ++ Stdout text :: post))
              by (apply in_elt);
            rewrite <- H in Hin; split_in Hin; discriminate).
  all: try reflexivity.
  all: try (intros pre text post H; unfold startup_events in H; cbn [app] in H;
            apply before_stdout in H; try discriminate;
            destruct H as [pre' ->]; cbn; auto 10).
  all: intros [[e' He']|Hb]; congruence.
Qed.

(** ** Further properties *)

(** X1. The change of directory is never undone: once [os.chdir] has
    succeeded, the process is in the new directory when [serve_static] ends,
    however it ends, also when the server could not be started. *)
Theorem chdir_is_never_undone (p : stored Z) (d : string) (env : Env) (w : World)
    (dir : string) :
  chdir_result env (cwd w) d = inr dir ->
  cwd (snd (serve_static p (value d) env w)) = dir.
Proof.
  intros H. destruct p as [p|].
  - run_cases p d env w;
      [ | | | | destruct (loop_raises (serve_script env)) ];
      cbn [snd cwd]; congruence.
  - unfold serve_static, os_chdir, with_, TCPServer, try_except_reraise, try_catch,
      server_bind, server_activate, server_close, socket_socket, socket_bind,
      socket_close, new_socket, set_socket, bind, emit, ask, get, raise, set_cwd, ret.
    cbn. rewrite H. cbn. destruct (socket_result env); reflexivity.
Qed.

(** The connections of the serve loop are closed, but for the last one when
    its handler never returns. *)
Lemma loop_sockets_shape (script : list loop_event) :
  exists n,
    loop_sockets script =
    repeat Closed n ++ (if stalls script then [Connected] else []).
Proof.
  induction script as [|ev script [n IH]]; [now exists 0|].
  destruct ev as [raised| |e|]; cbn [loop_sockets stalls].
  - destruct (escapes raised); cbn [negb andb].
    + now exists 1.
    + exists (S n). now rewrite IH.
  - now exists n.
  - now exists 0.
  - now exists 0.
Qed.

(** X2. [serve_static] leaves the sockets that were there alone, and of
    the sockets it has created every one is closed when it ends. A server
    that keeps running holds its listening socket, on 0.0.0.0 and the port it
    was given, or the port that the kernel has picked when it was given port
    0, and, when it is in a handler that never returns, the connection of
    that handler; its other connections are closed. *)
Theorem sockets_after_run (p : Z) (d : string) (env : Env) (w : World) :
  let r := serve_static (value p) (value d) env w in
  exists n,
    sockets (snd r) =
    sockets w ++
    match fst r with
    | Blocks =>
        Listening "0.0.0.0" (if (p =? 0)%Z then ephemeral_port env else p)
        :: repeat Closed n
        ++ (if stalls (serve_script env) then [Connected] else [])
    | _ => repeat Closed n
    end.
Proof.
  cbv zeta. fold (bound_port env p).
  run_cases p d env w;
    [ | | | | destruct (loop_raises (serve_script env)) as [e|] ];
    cbn [fst snd sockets].
  - exists 0. cbn. now rewrite app_nil_r.
  - exists 0. cbn. now rewrite app_nil_r.
  - exists 1. reflexivity.
  - exists 1. reflexivity.
  - exists (S (connections (serve_script env))). now destruct e.
  - destruct (loop_sockets_shape (serve_script env)) as [n Hn].
    exists n. now rewrite Hn.
Qed.


(** X4. [serve_static] prints nothing, or the startup line, or the
    startup line and then the shutdown message; and it prints the shutdown
    message exactly when it returns. *)
Theorem shutdown_message_iff_returns (p : Z) (d : string) (env : Env) (w : World) :
  let r := serve_static (value p) (value d) env w in
  let startup := (startup_message (value d) (value p) ++ LF)%string in
  let shutdown := (shutdown_message ++ LF)%string in
  exists out,
    stdout (log (snd r)) = stdout (log w) ++ out /\
    (out = [] \/ out = [startup] \/ out = [startup; shutdown]) /\
    (fst r = Returns tt <-> out = [startup; shutdown]).
Proof.
  intros r startup shutdown. subst r.
  assert (Hquiet : forall dir,
             stdout (loop_events (httpd (bound_port env p) (length (sockets w))) dir
                       (S (length (sockets w))) (serve_script env)) = []).
  { intros dir. apply (of_loop_stdout (httpd (bound_port env p) (length (sockets w))) dir).
    apply loop_events_of_loop. cbn. lia. }
  run_cases p d env w;
    [ | | | | destruct (loop_raises (serve_script env)) as [e|] ];
    unfold logged, startup_events, shutdown_events;
    cbn [fst snd log]; rewrite ?stdout_app, ?Hquiet.
  1-4: exists []; split; [reflexivity|]; split; [auto|];
         split; intros H0; discriminate H0.
  - destruct e; cbn [isinstance_KeyboardInterrupt].
    1: exists [startup; shutdown].
    2-4: exists [startup].
    all: split; [reflexivity|]; split; [auto|];
           split; intros H0; (discriminate H0 || reflexivity).
  - exists [startup]. split; [reflexivity|]. split; [auto|].
    split; intros H0; discriminate H0.
Qed.

Lemma loop_raises_goes_on (before rest : list loop_event) :
  forallb goes_on before = true ->
  loop_raises (before ++ rest) = loop_raises rest.
Proof.
  induction before as [|ev before IH]; intros H; [reflexivity|].
  cbn [forallb] in H. apply andb_prop in H as [Hev H].
  destruct ev as [raised| |e|]; cbn in *; [|auto|discriminate|discriminate].
  apply negb_true_iff in Hev. rewrite Hev. auto.
Qed.

(** The way [serve_static] completes rests on the answers of the host and
    on the exception that ends the serve loop, and on nothing else. *)
Lemma completion_by_loop_raises (p : Z) (d : string) (env : Env) (w : World)
    (s1 s2 : list loop_event) :
  loop_raises s1 = loop_raises s2 ->
  fst (serve_static (value p) (value d) (with_script env s1) w) =
  fst (serve_static (value p) (value d) (with_script env s2) w).
Proof.
  intros H.
  destruct (chdir_result env (cwd w) d) as [e|dir] eqn:Hchdir.
  { now rewrite (run_chdir_raises p d (with_script env s1) w _ Hchdir),
                (run_chdir_raises p d (with_script env s2) w _ Hchdir). }
  destruct (socket_result env) as [e|] eqn:Hsocket.
  { now rewrite (run_socket_raises p d (with_script env s1) w _ _ Hchdir Hsocket),
                (run_socket_raises p d (with_script env s2) w _ _ Hchdir Hsocket). }
  destruct (bind_result env "" p) as [e|] eqn:Hbind.
  { now rewrite (run_bind_raises p d (with_script env s1) w _ _ Hchdir Hsocket Hbind),
                (run_bind_raises p d (with_script env s2) w _ _ Hchdir Hsocket Hbind). }
  destruct (listen_result env) as [e|] eqn:Hlisten.
  { now rewrite (run_listen_raises p d (with_script env s1) w _ _
                   Hchdir Hsocket Hbind Hlisten),
                (run_listen_raises p d (with_script env s2) w _ _
                   Hchdir Hsocket Hbind Hlisten). }
  rewrite (run_serving p d (with_script env s1) w _ Hchdir Hsocket Hbind Hlisten),
          (run_serving p d (with_script env s2) w _ Hchdir Hsocket Hbind Hlisten).
  cbn [serve_script with_script]. rewrite H.
  now destruct (loop_raises s2).
Qed.

(** X5. Connections whose handler raises an [Exception], and connections
    that cannot be accepted, do not end the server: [serve_static] completes
    as it does without them. *)
Theorem failing_requests_do_not_end_the_server (p : Z) (d : string) (env : Env)
    (w : World) (before rest : list loop_event) :
  forallb goes_on before = true ->
  fst (serve_static (value p) (value d) (with_script env (before ++ rest)) w) =
  fst (serve_static (value p) (value d) (with_script env rest) w).
Proof.
  intros H. apply completion_by_loop_raises. now apply loop_raises_goes_on.
Qed.

(** ** Numbers on the command line *)

Lemma digit_is_not_dash (c : ascii) : is_digit c = true -> Ascii.eqb c "-" = false.
Proof.
  intros H. destruct (Ascii.eqb_spec c "-") as [->|]; [discriminate H | reflexivity].
Qed.

Lemma all_digits_of_uint (u : Decimal.uint) : all_digits (NilEmpty.string_of_uint u) = true.
Proof. induction u; cbn; auto. Qed.

Lemma digits1_of_uint (u : Decimal.uint) : digits1 (NilZero.string_of_uint u) = true.
Proof.
  destruct u; cbn; try reflexivity; apply all_digits_of_uint.
Qed.

Lemma digits_argument (s : string) : digits1 s = true -> is_argument s = true.
Proof.
  destruct s as [|c r]; [discriminate|]. unfold digits1. cbn [String.eqb negb andb all_digits].
  intros H. apply andb_prop in H as [H _].
  unfold is_argument, parse_optional. cbn [String.eqb].
  rewrite (digit_is_not_dash c H). reflexivity.
Qed.

Lemma all_digits_split_eq (s : string) : all_digits s = true -> split_eq s = None.
Proof.
  induction s as [|c r IH]; [reflexivity|]. cbn. intros H.
  apply andb_prop in H as [Hc Hr].
  destruct (Ascii.eqb_spec c "=") as [->|]; [discriminate Hc|].
  now rewrite (IH Hr).
Qed.

Lemma negative_digits_argument (s : string) :
  digits1 s = true -> is_argument (String "-" s) = true.
Proof.
  destruct s as [|c r]; [discriminate|]. unfold digits1. cbn [String.eqb negb andb all_digits].
  intros H. apply andb_prop in H as [Hc Hr].
  pose proof (all_digits_split_eq r Hr) as Hsplit.
  unfold is_argument, parse_optional, negative_number, negative_number_core, digits1.
  destruct c as [[] [] [] [] [] [] [] []]; try discriminate Hc;
    cbn; rewrite ?Hsplit, ?Hr; reflexivity.
Qed.

Lemma str_is_argument (n : Z) : is_argument (str n) = true.
Proof.
  unfold str. destruct n as [|q|q]; cbn [Z.to_int NilZero.string_of_int].
  - reflexivity.
  - apply digits_argument, digits1_of_uint.
  - apply negative_digits_argument, digits1_of_uint.
Qed.

(** X6. The port is not checked against any range: for every integer,
    negative or beyond 65535 alike, [--port] with its decimal text calls
    [serve_static] on that integer, and [bind] is asked for it as soon as
    [chdir] and the creation of the socket succeed. *)
Theorem port_is_not_range_checked (int : string -> option Z) (n : Z)
    (env : Env) (w : World) :
  int (str n) = Some n ->
  let r := main int ["--port"%string; str n] env w in
  r = serve_static (value n) (value "."%string) env w /\
  (forall dir, chdir_result env (cwd w) "." = inr dir -> socket_result env = None ->
     In (Bind (length (sockets w)) "" n) (log (snd r))).
Proof.
  intros Hint r. subst r. rewrite main_run.
  change ["--port"%string; str n] with (flat_map render [set_port (str n)]).
  rewrite parse_settings;
    [|cbn [forallb text_of]; now rewrite str_is_argument].
  cbn [configure defaults directory port]. rewrite Hint. cbn [port directory].
  split; [reflexivity|]. intros dir Hchdir Hsocket.
  destruct (bind_result env "" n) as [e|] eqn:Hbind.
  - rewrite (run_bind_raises n "." env w _ _ Hchdir Hsocket Hbind).
    cbn [snd log]. apply in_or_app. right. cbn. auto.
  - destruct (listen_result env) as [e|] eqn:Hlisten.
    + rewrite (run_listen_raises n "." env w _ _ Hchdir Hsocket Hbind Hlisten).
      cbn [snd log]. apply in_or_app. right. cbn. auto.
    + rewrite (run_serving n "." env w _ Hchdir Hsocket Hbind Hlisten).
      destruct (loop_raises (serve_script env)); cbn [snd log];
        apply in_or_app; right; unfold startup_events; cbn; auto.
Qed.

Lemma port_is_not_range_checked_witness :
  let r := main Host.int ["--port"%string; str (-1)]
             (Host.host ["/srv"%string] [] []) (Host.fresh "/srv") in
  r = serve_static (value (-1)%Z) (value "."%string)
        (Host.host ["/srv"%string] [] []) (Host.fresh "/srv") /\
  (forall dir,
     chdir_result (Host.host ["/srv"%string] [] []) (cwd (Host.fresh "/srv")) "." = inr dir ->
     socket_result (Host.host ["/srv"%string] [] []) = None ->
     In (Bind (length (sockets (Host.fresh "/srv"))) "" (-1)) (log (snd r))).
Proof.
  apply (port_is_not_range_checked Host.int (-1)
           (Host.host ["/srv"%string] [] []) (Host.fresh "/srv")).
  reflexivity.
Defined.

(** ** The directory on the command line *)

Lemma no_dash_argument (d : string) :
  (forall r, d <> String "-" r) -> is_argument d = true.
Proof.
  intros H. destruct d as [|c r]; [reflexivity|].
  unfold is_argument, parse_optional. cbn [String.eqb].
  destruct (Ascii.eqb_spec c "-") as [->|]; [now contradiction (H r) | reflexivity].
Qed.

(** X7. The directory is passed on as it is given: after [--directory],
    any text that does not begin with a dash, the empty text too, and after
    [--directory=] any text but the string of two dashes, is the directory
    that [serve_static] is called on, with port 8000. *)
Theorem directory_is_passed_as_given (int : string -> option Z) (d : string)
    (argv : list string) (env : Env) (w : World) :
  (forall r, d <> String "-" r) /\ argv = ["--directory"%string; d] \/
  d <> "--"%string /\ argv = [("--directory=" ++ d)%string] ->
  main int argv env w = serve_static (value 8000%Z) (value d) env w.
Proof.
  intros [[Hd ->]|[Hd ->]]; rewrite main_run.
  - change ["--directory"%string; d] with (flat_map render [set_directory d]).
    rewrite parse_settings; [reflexivity|].
    cbn [forallb text_of]. now rewrite (no_dash_argument d Hd).
  - apply String.eqb_neq in Hd.
    unfold parse_known_args. cbn [classify].
    change (String.eqb ("--directory=" ++ d) "--") with false.
    change (parse_optional ("--directory=" ++ d))
      with (@inr usage_error _
              (Some (Some (StoreAction dest_directory), "--directory"%string, Some d))).
    cbn [consume consume_optional next_argument].
    destruct d; cbn [match_explicit take_actions take_action]; rewrite Hd; reflexivity.
Qed.

Lemma directory_is_passed_as_given_witness :
  main Host.int ["--directory=-old"%string] (Host.host [] [] []) (Host.fresh "/srv") =
  serve_static (value 8000%Z) (value "-old"%string) (Host.host [] [] []) (Host.fresh "/srv").
Proof.
  apply (directory_is_passed_as_given Host.int "-old" ["--directory=-old"%string]).
  right. split; [discriminate | reflexivity].
Defined.

(** ** Several options *)

Lemma configure_app (int : string -> option Z) (l1 l2 : list setting) :
  forall namespace,
    configure int namespace (l1 ++ l2) =
    match configure int namespace l1 with
    | inr namespace' => configure int namespace' l2
    | inl text => inl text
    end.
Proof.
  induction l1 as [|s l1 IH]; intros ns; [reflexivity|].
  destruct s as [text|text]; cbn [app configure]; [|apply IH].
  destruct (int text); [apply IH | reflexivity].
Qed.

(** X8. The order of a [--port] and a [--directory] that stand next to
    each other on the command line does not matter. *)
Theorem options_commute (int : string -> option Z) (before after : list setting)
    (a b : string) :
  forallb (fun s => is_argument (text_of s)) before = true ->
  forallb (fun s => is_argument (text_of s)) after = true ->
  is_argument a = true ->
  is_argument b = true ->
  parse_known_args int
    (flat_map render (before ++ [set_port a; set_directory b] ++ after)) =
  parse_known_args int
    (flat_map render (before ++ [set_directory b; set_port a] ++ after)).
Proof.
  intros Hbefore Hafter Ha Hb.
  rewrite !parse_settings.
  - rewrite !configure_app.
    destruct (configure int defaults before) as [text|ns]; [reflexivity|].
    cbn [configure port directory]. destruct (int a); reflexivity.
  - rewrite forallb_app, Hbefore. cbn [forallb text_of app andb].
    now rewrite Ha, Hb, Hafter.
  - rewrite forallb_app, Hbefore. cbn [forallb text_of app andb].
    now rewrite Ha, Hb, Hafter.
Qed.

Lemma options_commute_witness :
  parse_known_args Host.int
    (flat_map render ([set_port "1"%string]
                      ++ [set_port "80"%string; set_directory "www"%string] ++ [])) =
  parse_known_args Host.int
    (flat_map render ([set_port "1"%string]
                      ++ [set_directory "www"%string; set_port "80"%string] ++ [])).
Proof.
  apply (options_commute Host.int [set_port "1"%string] [] "80" "www"); reflexivity.
Defined.

(** X9. An option given once more overrides what was given before and
    leaves the other option alone. *)
Theorem later_option_overrides (int : string -> option Z) (settings : list setting)
    (last : setting) (namespace : Namespace) :
  forallb (fun s => is_argument (text_of s)) settings = true ->
  is_argument (text_of last) = true ->
  parse_known_args int (flat_map render settings) = Done namespace [] ->
  parse_known_args int (flat_map render (settings ++ [last])) =
  match last with
  | set_port text =>
      match int text with
      | Some n => Done {| port := value n; directory := directory namespace |} []
      | None => Error (invalid_int_value text)
      end
  | set_directory text =>
      Done {| port := port namespace; directory := value text |} []
  end.
Proof.
  intros Hsettings Hlast Hparse.
  rewrite parse_settings in Hparse by exact Hsettings.
  rewrite parse_settings
    by (rewrite forallb_app, Hsettings; cbn [forallb andb]; now rewrite Hlast).
  rewrite configure_app.
  destruct (configure int defaults settings) as [text|ns]; [discriminate|].
  injection Hparse as ->.
  destruct last as [text|text]; cbn [configure]; [|reflexivity].
  destruct (int text); reflexivity.
Qed.

Lemma later_option_overrides_witness :
  parse_known_args Host.int
    (flat_map render ([set_port "80"%string; set_directory "www"%string]
                      ++ [set_port "8080"%string])) =
  Done {| port := value 8080%Z;
          directory := directory {| port := value 80%Z; directory := value "www"%string |} |} [].
Proof.
  apply (later_option_overrides Host.int
           [set_port "80"%string; set_directory "www"%string] (set_port "8080"%string)
           {| port := value 80%Z; directory := value "www"%string |});
    reflexivity.
Defined.

(** ** Abbreviations *)

Lemma prefix_inv (s : string) (c : ascii) (t : string) :
  String.prefix s (String c t) = true ->
  s = EmptyString \/ exists s', s = String c s' /\ String.prefix s' t = true.
Proof.
  destruct s as [|a s']; [now left|]. cbn.
  destruct (ascii_dec a c) as [->|]; [|discriminate]. right. eauto.
Qed.

Lemma prefix_nil_inv (s : string) : String.prefix s EmptyString = true -> s = EmptyString.
Proof. destruct s; [reflexivity | discriminate]. Qed.

Ltac prefixes H :=
  first
    [ apply prefix_nil_inv in H; subst
    | apply prefix_inv in H; destruct H as [->|(?s & -> & H)]; [|prefixes H] ].

Lemma abbreviation_found (flag : string) (a : action) (s : string) :
  In (flag, a) option_string_actions ->
  String.prefix s flag = true ->
  3 <= String.length s ->
  parse_optional s = inr (Some (Some a, flag, None)).
Proof.
  intros Hin Hprefix Hlen. cbn in Hin.
  destruct Hin as [H|[H|[H|[H|[]]]]]; injection H as <- <-;
    prefixes Hprefix; cbn in Hlen; try lia; reflexivity.
Qed.

(** X10. An abbreviation of three characters or more of an option of
    the parser stands for the option: at the head of a command line it
    parses as the option written in full. *)
Theorem abbreviation_stands_for_the_option (int : string -> option Z)
    (flag : string) (a : action) (s : string) (rest : list string) :
  In (flag, a) option_string_actions ->
  String.prefix s flag = true ->
  3 <= String.length s ->
  parse_known_args int (s :: rest) = parse_known_args int (flag :: rest).
Proof.
  intros Hin Hprefix Hlen.
  pose proof (abbreviation_found flag a s Hin Hprefix Hlen) as Hs.
  assert (Hflag : parse_optional flag = inr (Some (Some a, flag, None))).
  { cbn in Hin. destruct Hin as [H|[H|[H|[H|[]]]]]; injection H as <- <-; reflexivity. }
  assert (Hsd : String.eqb s "--" = false).
  { destruct (String.eqb_spec s "--") as [->|]; [cbn in Hlen; lia | reflexivity]. }
  assert (Hfd : String.eqb flag "--" = false).
  { cbn in Hin. destruct Hin as [H|[H|[H|[H|[]]]]]; injection H as <- <-; reflexivity. }
  unfold parse_known_args. cbn [classify]. rewrite Hsd, Hfd, Hs, Hflag.
  destruct (classify rest) as [err|ps]; reflexivity.
Qed.

Lemma abbreviation_stands_for_the_option_witness :
  parse_known_args Host.int ("--dir"%string :: ["www"%string]) =
  parse_known_args Host.int ("--directory"%string :: ["www"%string]).
Proof.
  apply (abbreviation_stands_for_the_option Host.int "--directory"
           (StoreAction dest_directory) "--dir" ["www"%string]).
  - right. right. right. left. reflexivity.
  - reflexivity.
  - cbn. lia.
Defined.

(** ** Strings that no option takes *)

Lemma app_not_nil {T} (l : list T) (x : T) : l ++ [x] <> [].
Proof. destruct l; discriminate. Qed.

(** A string that is left over stays left over. *)
Lemma consume_keeps_extras (int : string -> option Z) :
  forall n ps, length ps <= n ->
    forall namespace extras, extras <> [] ->
      turned_down (consume int ps namespace extras).
Proof.
  induction n as [|n IH]; intros ps Hlen ns extras Hex.
  - destruct ps; [exact Hex | cbn in Hlen; lia].
  - destruct ps as [|[x pat] ps]; [exact Hex|]. cbn in Hlen.
    destruct pat as [|[[[a|] os] e]|]; cbn [consume].
    + apply IH; [lia | apply app_not_nil].
    + destruct (consume_optional a os e (next_argument ps)) as [err|[calls taken]];
        [exact I|].
      destruct (take_actions int ns calls) as [ns' ex| |err]; try exact I.
      destruct taken; [|apply IH; [lia | exact Hex]].
      destruct ps as [|y ps]; [exact Hex|].
      apply IH; [cbn in Hlen; lia | exact Hex].
    + apply IH; [lia | apply app_not_nil].
    + apply IH; [lia | apply app_not_nil].
Qed.

Lemma consume_before_stray (int : string -> option Z) (tail : list (string * pattern)) :
  next_argument tail = None ->
  (forall namespace extras, turned_down (consume int tail namespace extras)) ->
  forall n ps1, length ps1 <= n -> Forall well_classified ps1 ->
    forall namespace extras,
      turned_down (consume int (ps1 ++ tail) namespace extras).
Proof.
  intros Hnext Htail.
  induction n as [|n IH]; intros ps1 Hlen Hall ns extras.
  - destruct ps1; [apply Htail | cbn in Hlen; lia].
  - destruct ps1 as [|[x pat] ps1]; [apply Htail|].
    cbn in Hlen. apply Forall_cons_iff in Hall as [_ Hall].
    destruct pat as [|[[[a|] os] e]|]; cbn [app consume].
    + apply IH; [lia | exact Hall].
    + destruct (consume_optional a os e (next_argument (ps1 ++ tail)))
        as [err|[calls taken]] eqn:Hco; [exact I|].
      destruct (take_actions int ns calls) as [ns' ex| |err]; try exact I.
      destruct taken; [|apply IH; [lia | exact Hall]].
      apply consume_optional_taken in Hco.
      destruct ps1 as [|[v pv] ps1]; [cbn in Hco; congruence|].
      cbn [app]. apply Forall_cons_iff in Hall as [_ Hall].
      apply IH; [cbn in Hlen; lia | exact Hall].
    + apply IH; [lia | exact Hall].
    + apply IH; [lia | exact Hall].
Qed.

Lemma parse_stray (int : string -> option Z) (pre : list string) (x : string)
    (post : list string) :
  x = "--"%string \/
  (exists option_string explicit_arg,
      parse_optional x = inr (Some (None, option_string, explicit_arg))) ->
  turned_down (parse_known_args int (pre ++ x :: post)).
Proof.
  intros Hx. unfold parse_known_args.
  destruct (classify (pre ++ x :: post)) as [err|ps] eqn:Hps; [exact I|].
  assert (Hdash : forall l,
             forall ns extras,
               turned_down (consume int (("--"%string, Dash) :: map (fun s => (s, Arg)) l)
                              ns extras)).
  { intros l ns extras. cbn [consume]. rewrite consume_arguments. cbn.
    destruct extras; discriminate. }
  apply classify_app in Hps
      as [(ps1 & ps2 & -> & Hfst & Hall & Hcl)|(ps1 & l & -> & Hincl & Hall)].
  - apply (consume_before_stray int ps2) with (n := length ps1); auto.
    + destruct Hx as [->|(os & e & Hopt)]; cbn [classify] in Hcl.
      * injection Hcl as <-. reflexivity.
      * rewrite (option_is_not_dash x _ Hopt), Hopt in Hcl.
        destruct (classify post); [discriminate|]. now injection Hcl as <-.
    + intros ns extras.
      destruct Hx as [->|(os & e & Hopt)]; cbn [classify] in Hcl.
      * injection Hcl as <-. apply Hdash.
      * rewrite (option_is_not_dash x _ Hopt), Hopt in Hcl.
        destruct (classify post) as [err|ps']; [discriminate|]. injection Hcl as <-.
        cbn [consume]. apply (consume_keeps_extras int (length ps')); [lia|].
        apply app_not_nil.
  - apply (consume_before_stray int
             (("--"%string, Dash) :: map (fun s => (s, Arg)) l) eq_refl (Hdash l))
      with (n := length ps1); auto.
Qed.

(** X11. A string that looks like an option and is none of the parser,
    or the string of two dashes, is never passed over: wherever it stands,
    the process ends in [argparse], with the help text and status 0 or with
    a usage error and status 2, and [serve_static] is not called. *)
Theorem unrecognized_option_is_never_ignored (int : string -> option Z)
    (pre : list string) (x : string) (post : list string) (env : Env) (w : World) :
  x = "--"%string \/
  (exists option_string explicit_arg,
      parse_optional x = inr (Some (None, option_string, explicit_arg))) ->
  exists status ev,
    main int (pre ++ x :: post) env w = (Raises (SystemExit status), logged w [ev]) /\
    (ev = PrintHelp /\ status = 0%Z \/ (exists err, ev = PrintUsage err) /\ status = 2%Z).
Proof.
  intros Hx. rewrite main_run.
  pose proof (parse_stray int pre x post Hx) as Hdown.
  destruct (parse_known_args int (pre ++ x :: post)) as [ns [|y extras]| |err];
    cbn in Hdown.
  - now contradiction Hdown.
  - do 2 eexists. split; [reflexivity|]. right. split; [eauto | reflexivity].
  - do 2 eexists. split; [reflexivity|]. left. now split.
  - do 2 eexists. split; [reflexivity|]. right. split; [eauto | reflexivity].
Qed.

Lemma unrecognized_option_is_never_ignored_witness :
  exists status ev,
    main Host.int
      (["--port"%string; "80"%string]
       ++ "--verbose"%string :: ["--directory"%string; "www"%string])
      (Host.host [] [] []) (Host.fresh "/srv") =
    (Raises (SystemExit status), logged (Host.fresh "/srv") [ev]) /\
    (ev = PrintHelp /\ status = 0%Z \/ (exists err, ev = PrintUsage err) /\ status = 2%Z).
Proof.
  apply (unrecognized_option_is_never_ignored Host.int ["--port"; "80"]%string
           "--verbose" ["--directory"; "www"]%string).
  right. do 2 eexists. reflexivity.
Defined.

(** ** A value that [argparse] drops *)

Lemma run_port_not_an_integer (d : string) (env : Env) (w : World) (dir : string) :
  chdir_result env (cwd w) d = inr dir ->
  socket_result env = None ->
  serve_static empty_list (value d) env w =
  (Raises TypeError,
   {| cwd := dir;
      sockets := sockets w ++ [Closed];
      log := log w ++ [Chdir d; Socket (length (sockets w)); Close (length (sockets w))] |}).
Proof.
  intros Hchdir Hsocket.
  unfold serve_static, os_chdir, with_, TCPServer, try_except_reraise, try_catch,
    server_bind, server_activate, server_close, socket_socket, socket_bind,
    socket_close, new_socket, set_socket, bind, emit, ask, get, raise, set_cwd, ret.
  cbn. rewrite Hchdir. cbn. rewrite Hsocket. cbn.
  now rewrite update_last, <- !app_assoc.
Qed.

(** X12. When the port option carries the string of two dashes after an
    equals sign, [argparse] (CPython 3.11) drops the string and the port is
    an empty list: [serve_static] is called, changes the directory, and
    fails with [TypeError] in [bind]; the socket is closed and the process
    exits with status 1. *)
Theorem dropped_port_value_fails_in_bind (int : string -> option Z) (opt : string)
    (env : Env) (w : World) (dir : string) :
  port_option opt (Some "--"%string) ->
  chdir_result env (cwd w) "." = inr dir ->
  socket_result env = None ->
  let r := main int [opt] env w in
  let fd := length (sockets w) in
  r = serve_static empty_list (value "."%string) env w /\
  fst r = Raises TypeError /\
  exit_status (fst r) = Some 1%Z /\
  cwd (snd r) = dir /\
  sockets (snd r) = sockets w ++ [Closed] /\
  log (snd r) = log w ++ [Chdir "."; Socket fd; Close fd].
Proof.
  intros [os Hopt] Hchdir Hsocket r fd. subst r fd.
  assert (Hmain : main int [opt] env w =
                  serve_static empty_list (value "."%string) env w).
  { rewrite main_run. unfold parse_known_args. cbn [classify].
    rewrite (option_is_not_dash opt _ Hopt), Hopt. reflexivity. }
  rewrite Hmain, (run_port_not_an_integer "." env w dir Hchdir Hsocket).
  repeat split.
Qed.

Lemma dropped_port_value_fails_in_bind_witness :
  let r := main Host.int ["--port=--"%string] (Host.host ["/srv"%string] [] [])
             (Host.fresh "/srv") in
  r = serve_static empty_list (value "."%string) (Host.host ["/srv"%string] [] [])
        (Host.fresh "/srv") /\
  fst r = Raises TypeError /\
  exit_status (fst r) = Some 1%Z /\
  cwd (snd r) = "/srv"%string /\
  sockets (snd r) = [] ++ [Closed] /\
  log (snd r) = [] ++ [Chdir "."; Socket 0; Close 0].
Proof.
  apply (dropped_port_value_fails_in_bind Host.int "--port=--"
           (Host.host ["/srv"%string] [] []) (Host.fresh "/srv") "/srv").
  - eexists. reflexivity.
  - reflexivity.
  - reflexivity.
Defined.

Lemma chdir_is_never_undone_witness :
  cwd (snd (serve_static (value 8000%Z) (value "www"%string)
              (Host.host ["/srv/www"%string] [8000%Z] []) (Host.fresh "/srv"))) =
  "/srv/www"%string.
Proof.
  apply (chdir_is_never_undone (value 8000%Z) "www"
           (Host.host ["/srv/www"%string] [8000%Z] []) (Host.fresh "/srv") "/srv/www").
  reflexivity.
Defined.

Lemma failing_requests_do_not_end_the_server_witness :
  fst (serve_static (value 8000%Z) (value "."%string)
         (with_script (Host.host ["/srv"%string] [] [])
            ([Connection (Some (OSError 32)); AcceptError; Connection None]
             ++ [Interrupt KeyboardInterrupt]))
         (Host.fresh "/srv")) =
  fst (serve_static (value 8000%Z) (value "."%string)
         (with_script (Host.host ["/srv"%string] [] []) [Interrupt KeyboardInterrupt])
         (Host.fresh "/srv")).
Proof.
  apply (failing_requests_do_not_end_the_server 8000 "."
           (Host.host ["/srv"%string] [] []) (Host.fresh "/srv")
           [Connection (Some (OSError 32)); AcceptError; Connection None]
           [Interrupt KeyboardInterrupt]).
  reflexivity.
Defined.

(** ** The help option after other options *)

Lemma classify_settings_then (settings : list setting) (rest : list string)
    (ps : list (string * pattern)) :
  forallb (fun s => is_argument (text_of s)) settings = true ->
  classify rest = inr ps ->
  classify (flat_map render settings ++ rest) = inr (flat_map classified settings ++ ps).
Proof.
  intros H Hrest.
  induction settings as [|s settings IH]; [exact Hrest|].
  cbn [forallb] in H. apply andb_prop in H as [Hs H].
  apply is_argument_spec in Hs as [Hdash Hopt].
  specialize (IH H).
  destruct s as [text|text]; cbn [flat_map render classified app text_of] in *;
    rewrite <- ?app_assoc; cbn [app].
  - apply (classify_cons "--port" _
             (Some (Some (StoreAction dest_port), "--port"%string, None)));
      [reflexivity | reflexivity |].
    now apply (classify_cons text _ None).
  - apply (classify_cons "--directory" _
             (Some (Some (StoreAction dest_directory), "--directory"%string, None)));
      [reflexivity | reflexivity |].
    now apply (classify_cons text _ None).
Qed.

Lemma consume_settings_then (int : string -> option Z) (settings : list setting)
    (tail : list (string * pattern)) :
  forallb (fun s => is_argument (text_of s)) settings = true ->
  forall namespace extras,
    consume int (flat_map classified settings ++ tail) namespace extras =
    match configure int namespace settings with
    | inr namespace' => consume int tail namespace' extras
    | inl text => Error (invalid_int_value text)
    end.
Proof.
  induction settings as [|s settings IH]; intros H ns extras; [reflexivity|].
  cbn [forallb] in H. apply andb_prop in H as [Hs H].
  apply is_argument_spec in Hs as [Hdash _]. specialize (IH H).
  destruct s as [text|text]; cbn [text_of] in Hdash;
    cbn [flat_map classified app]; rewrite <- ?app_assoc;
    cbn [app consume configure
           consume_optional match_following next_argument take_actions take_action].
  - rewrite Hdash. destruct (int text) as [n|]; [apply IH | reflexivity].
  - rewrite Hdash. apply IH.
Qed.

(** X13. The help option after uses of [--port] and [--directory] that
    parse ends the process with the help text and status 0, whatever stands
    behind it, as long as no string there is an ambiguous option. *)
Theorem help_after_options_ends_parsing (int : string -> option Z)
    (settings : list setting) (h : string) (rest : list string)
    (namespace : Namespace) (env : Env) (w : World) :
  forallb (fun s => is_argument (text_of s)) settings = true ->
  configure int defaults settings = inr namespace ->
  (exists option_string,
      parse_optional h = inr (Some (Some HelpAction, option_string, None))) ->
  (exists ps, classify rest = inr ps) ->
  main int (flat_map render settings ++ h :: rest) env w =
  (Raises (SystemExit 0), logged w [PrintHelp]).
Proof.
  intros Hsettings Hconf [os Hh] [ps Hrest].
  rewrite main_run. unfold parse_known_args.
  rewrite (classify_settings_then settings (h :: rest)
             ((h, Opt (Some HelpAction, os, None)) :: ps) Hsettings).
  - rewrite consume_settings_then by exact Hsettings. rewrite Hconf. reflexivity.
  - apply (classify_cons h rest (Some (Some HelpAction, os, None)));
      [exact (option_is_not_dash h _ Hh) | exact Hh | exact Hrest].
Qed.

Lemma help_after_options_ends_parsing_witness :
  main Host.int
    (flat_map render [set_port "80"%string] ++ "-h"%string :: ["--port"; "x"; "y"]%string)
    (Host.host [] [] []) (Host.fresh "/srv") =
  (Raises (SystemExit 0), logged (Host.fresh "/srv") [PrintHelp]).
Proof.
  apply (help_after_options_ends_parsing Host.int [set_port "80"%string] "-h"
           ["--port"; "x"; "y"]%string {| port := value 80%Z; directory := value "."%string |}).
  - reflexivity.
  - reflexivity.
  - eexists. reflexivity.
  - eexists. reflexivity.
Defined.
